(** * MixedSubtitles: the capture / session pipeline of [translator_in_real_time.py]

    A shallow embedding of the recorder: the module-level globals
    ([is_recording], [frames], [stream], [recording_start_time],
    [exit_event], [record_lock]), the three entry points that touch them
    ([start_recording], [stop_recording], [on_closing]), one iteration of
    the capture thread ([record_audio]), the in-memory WAV container that
    [stop_recording] builds with the [wave] module, and the worker
    [process_audio].

    External calls (PortAudio, Tk, the Groq client, the clock) are not
    executed: what each of them answers is an argument of the function that
    makes the call, and what the program does to the outside is appended to
    a trace of events kept in the state. *)

From Stdlib Require Import String.
From Stdlib Require Import List Bool Arith NArith ZArith QArith Lia.
From Stdlib Require Import Strings.Byte.
From ExtLib Require Import Structures.Monad Structures.MonadExc.
Import ListNotations.
Import MonadNotation.

Local Open Scope monad_scope.

(** ** Audio configuration (lines 29-33) *)

(** PortAudio sample formats, as [pyaudio] names them. *)
Inductive sample_format : Type :=
| paFloat32 | paInt32 | paInt24 | paInt16 | paInt8 | paUInt8.

(** [PyAudio.get_sample_size]: the width in bytes of one sample. *)
Definition get_sample_size (f : sample_format) : N :=
  match f with
  | paFloat32 => 4
  | paInt32 => 4
  | paInt24 => 3
  | paInt16 => 2
  | paInt8 => 1
  | paUInt8 => 1
  end%N.

Definition CHUNK : N := 1024.
Definition FORMAT : sample_format := paInt16.
Definition CHANNELS : N := 1.
Definition RATE : N := 16000.

(** The argument of [time.sleep] on line 208 is the literal [0.01]; the
    double it denotes is exactly [5764607523034235 / 2^59]. *)
Definition SLEEP : Q := 5764607523034235 # 576460752303423488.

(** The time one chunk of [CHUNK] frames lasts at [RATE] frames a second. *)
Definition chunk_period : Q :=
  inject_Z (Z.of_N CHUNK) / inject_Z (Z.of_N RATE).

(** ** Bytes *)

Definition bytes : Type := list byte.

Definition bytes_eqb (a b : bytes) : bool :=
  if list_eq_dec Byte.byte_eq_dec a b then true else false.

(** [b''.join(frames)] *)
Definition join (chunks : list bytes) : bytes := List.concat chunks.

(** The low eight bits of [v] as a byte. *)
Definition low_byte (v : N) : byte :=
  match Byte.of_N (v mod 256) with
  | Some b => b
  | None => x00
  end.

(** Little-endian layout of [v] on two and on four bytes. *)
Definition le16 (v : N) : bytes :=
  [low_byte v; low_byte (v / 256)].

Definition le32 (v : N) : bytes :=
  [low_byte v; low_byte (v / 256); low_byte (v / 65536); low_byte (v / 16777216)].

(** The value of a little-endian byte string. *)
Fixpoint unpack_le (bs : bytes) : N :=
  match bs with
  | [] => 0
  | b :: rest => Byte.to_N b + 256 * unpack_le rest
  end%N.

(** ** The [wave] module, as far as [stop_recording] drives it

    [wave] and [struct] belong to the Python standard library, not to this
    repository; they are modelled here on the calls the program makes:
    [setnchannels], [setsampwidth], [setframerate], one [writeframes], the
    [close] of the [with] block, and on the reading side [wave.open(.., "rb")],
    the getters and [readframes]. The host is taken to be little-endian, so
    that frames are stored as they are given. *)

Inductive wave_error : Type :=
| struct_error          (* a field does not fit its [struct] format *)
| bad_channels          (* Error('bad # of channels') *)
| bad_sample_width      (* Error('bad sample width') *)
| bad_frame_rate        (* Error('bad frame rate') *)
| no_RIFF_id            (* Error('file does not start with RIFF id') *)
| not_WAVE              (* Error('not a WAVE file') *)
| unknown_format        (* Error('unknown format: ...') *)
| data_before_fmt       (* Error('data chunk before fmt chunk') *)
| chunk_missing         (* Error('fmt chunk and/or data chunk missing') *)
| EOFError.

(** [struct.pack('<H', v)] and [struct.pack('<L', v)]: out of range raises. *)
Definition pack_H (v : N) : wave_error + bytes :=
  if (v <=? 65535)%N then inr (le16 v) else inl struct_error.

Definition pack_L (v : N) : wave_error + bytes :=
  if (v <=? 4294967295)%N then inr (le32 v) else inl struct_error.

Definition tag_RIFF : bytes := [x52; x49; x46; x46].
Definition tag_WAVE : bytes := [x57; x41; x56; x45].
Definition tag_fmt  : bytes := [x66; x6d; x74; x20].
Definition tag_data : bytes := [x64; x61; x74; x61].

Definition WAVE_FORMAT_PCM : N := 1.

Definition wbind {A B} (c : wave_error + A) (k : A -> wave_error + B)
  : wave_error + B :=
  match c with
  | inl e => inl e
  | inr a => k a
  end.

Notation "'do' x <~ c ; k" := (wbind c (fun x => k))
  (at level 10, x name, c at level 100, k at level 200).

(** [Wave_write._write_header]: the 44 bytes in front of the frames, from
    [struct.pack('<L4s4sLHHLLHH4s', ...)] and [struct.pack('<L', datalength)]. *)
Definition write_header (nchannels sampwidth framerate datalength : N)
  : wave_error + bytes :=
  do form_length <~ pack_L (36 + datalength);
  do fmt_length  <~ pack_L 16;
  do format_tag  <~ pack_H WAVE_FORMAT_PCM;
  do channels    <~ pack_H nchannels;
  do rate        <~ pack_L framerate;
  do byte_rate   <~ pack_L (nchannels * framerate * sampwidth);
  do block_align <~ pack_H (nchannels * sampwidth);
  do bits        <~ pack_H (sampwidth * 8);
  do data_length <~ pack_L datalength;
  inr (tag_RIFF ++ form_length ++ tag_WAVE ++ tag_fmt ++ fmt_length
        ++ format_tag ++ channels ++ rate ++ byte_rate ++ block_align
        ++ bits ++ tag_data ++ data_length).

(** [Wave_write._patchheader]: the two length fields, at offsets 4 and 40,
    are written again once the number of bytes written is known. *)
Definition patchheader (file : bytes) (datawritten : N) : wave_error + bytes :=
  do form_length <~ pack_L (36 + datawritten);
  do data_length <~ pack_L datawritten;
  inr (firstn 4 file ++ form_length ++ firstn 32 (skipn 8 file)
        ++ data_length ++ skipn 44 file).

(** The writer of lines 172-176: the three setters with their checks, then
    [writeframes(data)], which writes the header for [len(data)] bytes
    rounded down to whole frames, writes [data], and patches the header when
    the two lengths differ. The [close] at the end of the [with] block finds
    the header written and the lengths equal. *)
Definition wave_write (nchannels sampwidth framerate : N) (data : bytes)
  : wave_error + bytes :=
  if (nchannels <? 1)%N then inl bad_channels else
  if ((sampwidth <? 1) || (4 <? sampwidth))%N then inl bad_sample_width else
  if (framerate <? 1)%N then inl bad_frame_rate else
  let datawritten := N.of_nat (length data) in
  let nframes := (datawritten / (nchannels * sampwidth))%N in
  let datalength := (nframes * nchannels * sampwidth)%N in
  do header <~ write_header nchannels sampwidth framerate datalength;
  let file := header ++ data in
  if (datalength =? datawritten)%N then inr file
  else patchheader file datawritten.

(** What [wave.open(buffer, "rb")] keeps of a file it accepts. [r_data] is
    the content of the data chunk, the bytes [readframes] draws from. *)
Record Wave_read : Type := mkWave_read {
  r_nchannels : N;
  r_sampwidth : N;
  r_framerate : N;
  r_nframes : N;
  r_data : bytes
}.

Definition getnchannels (r : Wave_read) : N := r_nchannels r.
Definition getsampwidth (r : Wave_read) : N := r_sampwidth r.
Definition getframerate (r : Wave_read) : N := r_framerate r.
Definition getnframes (r : Wave_read) : N := r_nframes r.

(** [readframes(n)]: at most [n] frames from the start of the data chunk. *)
Definition readframes (r : Wave_read) (n : N) : bytes :=
  firstn (N.to_nat (n * (r_nchannels r * r_sampwidth r))) (r_data r).

(** [_Chunk(file, bigendian=0)]: a four-byte name and a four-byte size; the
    rest of the file follows. Fewer than eight bytes is [EOFError]. *)
Definition read_chunk (file : bytes) : option (bytes * N * bytes) :=
  match file with
  | n0 :: n1 :: n2 :: n3 :: s0 :: s1 :: s2 :: s3 :: rest =>
      Some ([n0; n1; n2; n3], unpack_le [s0; s1; s2; s3], rest)
  | _ => None
  end.

(** [Chunk.skip]: to the end of the chunk, and one byte more when its size
    is odd. *)
Definition skip_chunk (size : N) (rest : bytes) : bytes :=
  skipn (N.to_nat (size + size mod 2)) rest.

(** [Wave_read._read_fmt_chunk]: format tag, channels, frame rate, byte rate
    and block alignment on 14 bytes, then for PCM the bits per sample. *)
Definition read_fmt_chunk (body : bytes) : wave_error + (N * N * N) :=
  match body with
  | t0 :: t1 :: c0 :: c1 :: r0 :: r1 :: r2 :: r3
      :: _ :: _ :: _ :: _ :: _ :: _ :: after =>
      let wFormatTag := unpack_le [t0; t1] in
      let nchannels := unpack_le [c0; c1] in
      let framerate := unpack_le [r0; r1; r2; r3] in
      if (wFormatTag =? WAVE_FORMAT_PCM)%N then
        match after with
        | b0 :: b1 :: _ =>
            let sampwidth := ((unpack_le [b0; b1] + 7) / 8)%N in
            if (sampwidth =? 0)%N then inl bad_sample_width
            else if (nchannels =? 0)%N then inl bad_channels
            else inr (nchannels, sampwidth, framerate)
        | _ => inl EOFError
        end
      else inl unknown_format
  | _ => inl EOFError
  end.

(** The loop of [Wave_read.initfp] over the chunks inside the RIFF form:
    it keeps the last [fmt ] chunk seen, stops at the first [data] chunk and
    skips every other one. [fuel] bounds the number of chunks; each takes at
    least eight bytes, so the length of the form is always enough. *)
Fixpoint read_chunks (fuel : nat) (fmt : option (N * N * N)) (form : bytes)
  : wave_error + Wave_read :=
  match fuel with
  | O => inl chunk_missing
  | S fuel' =>
      match read_chunk form with
      | None => inl chunk_missing
      | Some (name, size, rest) =>
          let body := firstn (N.to_nat size) rest in
          if bytes_eqb name tag_fmt then
            do f <~ read_fmt_chunk body;
            read_chunks fuel' (Some f) (skip_chunk size rest)
          else if bytes_eqb name tag_data then
            match fmt with
            | None => inl data_before_fmt
            | Some (nchannels, sampwidth, framerate) =>
                inr {| r_nchannels := nchannels;
                       r_sampwidth := sampwidth;
                       r_framerate := framerate;
                       r_nframes := size / (nchannels * sampwidth);
                       r_data := body |}
            end
          else read_chunks fuel' fmt (skip_chunk size rest)
      end
  end.

(** [wave.open(file, "rb")], that is [Wave_read.initfp]. *)
Definition wave_read (file : bytes) : wave_error + Wave_read :=
  match read_chunk file with
  | None => inl EOFError
  | Some (name, size, rest) =>
      if bytes_eqb name tag_RIFF then
        let form := firstn (N.to_nat size) rest in
        if bytes_eqb (firstn 4 form) tag_WAVE
        then read_chunks (length form) None (skipn 4 form)
        else inl not_WAVE
      else inl no_RIFF_id
  end.

(** ** The globals, the exceptions and the trace *)

(** A PortAudio stream object, as [p.open] returns it. *)
Inductive Stream : Type := mkStream (id : nat).

(** A Python [str], as the list of its code points. *)
Definition str : Type := list N.

(** The [str] of a literal of the program, all of them ASCII. *)
Definition str_of (s : string) : str :=
  map Ascii.N_of_ascii (list_ascii_of_string s).

(** The body of an answer with an HTTP error status, as far as line 114
    looks into it: [e.response.json()], then [.get('error', {})], then
    [.get('message', 'Unknown error')]. *)
Inductive error_field : Type :=
| error_not_an_object                 (* "error": null, a string, a list *)
| error_object (message : option str). (* "error": {...}, "message" or not *)

Inductive error_body : Type :=
| body_not_json                       (* [json()] raises *)
| body_not_an_object                  (* JSON, but no object: no [.get] *)
| body_object (error : option error_field). (* {...}, "error" or not *)

(** The exceptions the program can meet. *)
Inductive exn : Type :=
| OSError (errno : Z)                 (* PortAudio: open, read, stop, close *)
| AttributeError                      (* a method called on what lacks it *)
| JSONDecodeError                     (* [json()] on a body that is not JSON *)
| WaveException (e : wave_error)      (* raised inside [wave] or [struct] *)
| APIStatusError (status_code : N) (body : error_body)
                                      (* an answer with an HTTP status *)
| APIConnectionError.                 (* no answer: nothing in [e.response] *)

(** Line 114: the message of an error answer, or the exception that
    reading it raises. *)
Definition response_error_message (body : error_body) : exn + str :=
  match body with
  | body_not_json => inl JSONDecodeError
  | body_not_an_object => inl AttributeError
  | body_object None => inr (str_of "Unknown error")
  | body_object (Some error_not_an_object) => inl AttributeError
  | body_object (Some (error_object None)) => inr (str_of "Unknown error")
  | body_object (Some (error_object (Some m))) => inr m
  end.

(** [except wave.Error]: [struct.error] and [EOFError] are not [wave.Error]. *)
Definition is_wave_Error (e : exn) : bool :=
  match e with
  | WaveException struct_error => false
  | WaveException EOFError => false
  | WaveException _ => true
  | _ => false
  end.

(** What [client.audio.transcriptions.create] returns, as far as line 87
    looks at it: its truth value and its [text] attribute, if it has one. *)
Record transcription : Type := mkTranscription {
  truthy : bool;
  text : option str
}.

(** [hasattr(transcription, 'text')] *)
Definition hasattr_text (t : transcription) : bool :=
  match text t with
  | Some _ => true
  | None => false
  end.

(** The texts printed or shown; one constructor for each f-string. *)
Inductive message : Type :=
| Text (s : string)
| Error_starting_recording (e : exn)
| Failed_to_start_recording (e : exn)
| Recording_duration (duration : Q)
| Recorded_seconds (duration : Q)
| Error_stopping_recording (e : exn)
| Failed_to_stop_recording (e : exn)
| WAV_file_is_malformed (e : exn)
| Recorded_audio_is_malformed (e : exn)
| Error_writing_audio_buffer (e : exn)
| Failed_to_write_audio_buffer (e : exn)
| Error_reading_audio_stream (e : exn)
| You_said (t : option str)
| Transcription_duration (d : Q)
| Translated_text (t : str)
| Translation_duration (d : Q)
| Total_duration (d : Q)
| Error_in_translation (e : exn)
| Error_code (status_code : N) (error_message : str)
| Error_in_transcription_or_translation (e : exn)
| Error_during_stream_closure (e : exn).

(** What the program does to the outside. *)
Inductive event : Type :=
| print (m : message)
| showwarning (m : message)
| showerror (m : message)
| status_label_config (m : message)
| p_open (format : sample_format) (channels rate frames_per_buffer : N)
| stream_read (h : Stream) (num_frames : N)
| stream_stop_stream (h : Stream)
| stream_close (h : Stream)
| thread_start (audio_buffer : bytes)        (* a [process_audio] thread *)
| transcriptions_create (file : bytes) (model : string)
| chat_completions_create (content : option str) (model : string)
| audio_buffer_close
| sleep (seconds : Q)
| root_destroy
| p_terminate.

(** The module-level variables of lines 38-44. [record_lock] is [true]
    while the lock is held. [trace] lists the events, the latest first. *)
Record globals : Type := mkGlobals {
  is_recording : bool;
  frames : list bytes;
  stream : option Stream;
  recording_start_time : Q;
  exit_event : bool;
  record_lock : bool;
  trace : list event
}.

(** The state when the module has been loaded. *)
Definition initial : globals :=
  {| is_recording := false;
     frames := [];
     stream := None;
     recording_start_time := 0;
     exit_event := false;
     record_lock := false;
     trace := [] |}.

(** ** The monad of the program

    A piece of the program, run from some globals, returns a value, raises
    an exception, or blocks for ever on a lock that is never released. *)
Inductive result (A : Type) : Type :=
| Returned (a : A) (g : globals)
| Raised (e : exn) (g : globals)
| Blocked (g : globals).

Arguments Returned {A} a g.
Arguments Raised {A} e g.
Arguments Blocked {A} g.

Definition prog (A : Type) : Type := globals -> result A.

Definition prog_ret {A} (a : A) : prog A := fun g => Returned a g.

Definition prog_bind {A B} (c : prog A) (k : A -> prog B) : prog B :=
  fun g =>
    match c g with
    | Returned a g' => k a g'
    | Raised e g' => Raised e g'
    | Blocked g' => Blocked g'
    end.

#[global] Instance Monad_prog : Monad prog :=
  {| ret := @prog_ret; bind := @prog_bind |}.

(** [try: c  except Exception as e: handler e] *)
Definition prog_catch {A} (c : prog A) (handler : exn -> prog A) : prog A :=
  fun g =>
    match c g with
    | Raised e g' => handler e g'
    | r => r
    end.

#[global] Instance Exc_prog : MonadExc exn prog :=
  {| raise := fun A e g => Raised e g; catch := @prog_catch |}.

(** [try: c  finally: f] *)
Definition finally {A} (c : prog A) (f : prog unit) : prog A :=
  fun g =>
    match c g with
    | Returned a g' => (f ;; ret a) g'
    | Raised e g' => (f ;; raise e) g'
    | Blocked g' => Blocked g'
    end.

Definition read {A} (var : globals -> A) : prog A :=
  fun g => Returned (var g) g.

Definition set_is_recording (b : bool) : prog unit :=
  fun g => Returned tt
    (mkGlobals b (frames g) (stream g) (recording_start_time g)
       (exit_event g) (record_lock g) (trace g)).

Definition set_frames (fs : list bytes) : prog unit :=
  fun g => Returned tt
    (mkGlobals (is_recording g) fs (stream g) (recording_start_time g)
       (exit_event g) (record_lock g) (trace g)).

Definition set_stream (s : option Stream) : prog unit :=
  fun g => Returned tt
    (mkGlobals (is_recording g) (frames g) s (recording_start_time g)
       (exit_event g) (record_lock g) (trace g)).

Definition set_recording_start_time (t : Q) : prog unit :=
  fun g => Returned tt
    (mkGlobals (is_recording g) (frames g) (stream g) t
       (exit_event g) (record_lock g) (trace g)).

(** [exit_event.set()] *)
Definition exit_event_set : prog unit :=
  fun g => Returned tt
    (mkGlobals (is_recording g) (frames g) (stream g) (recording_start_time g)
       true (record_lock g) (trace g)).

Definition set_record_lock (b : bool) : prog unit :=
  fun g => Returned tt
    (mkGlobals (is_recording g) (frames g) (stream g) (recording_start_time g)
       (exit_event g) b (trace g)).

Definition emit (e : event) : prog unit :=
  fun g => Returned tt
    (mkGlobals (is_recording g) (frames g) (stream g) (recording_start_time g)
       (exit_event g) (record_lock g) (e :: trace g)).

(** [with record_lock: body]. [threading.Lock] is not reentrant: acquiring
    it while it is held waits for a release. The entry points below run
    their critical sections one at a time, so a lock found held is held by
    a section that is itself waiting, and the wait never ends. The lock is
    released when [body] returns and when it raises. *)
Definition with_record_lock {A} (body : prog A) : prog A :=
  fun g =>
    if record_lock g then Blocked g
    else finally (set_record_lock true ;; body) (set_record_lock false) g.

(** A call to the outside: the call is recorded, and it returns or raises
    what the outside answers. *)
Definition call {A} (ev : event) (answer : exn + A) : prog A :=
  emit ev ;;
  match answer with
  | inl e => raise e
  | inr a => ret a
  end.

Definition call_unit (ev : event) (raises : option exn) : prog unit :=
  emit ev ;;
  match raises with
  | Some e => raise e
  | None => ret tt
  end.

(** A method of [stream]; on [None] the attribute lookup fails. *)
Definition on_stream (s : option Stream) (method : Stream -> event)
    (raises : option exn) : prog unit :=
  match s with
  | None => raise AttributeError
  | Some h => call_unit (method h) raises
  end.

(** ** Configuration (lines 26-27) *)

Definition whisper_model : string := "whisper-large-v3-turbo".
Definition llama_model : string := "gemma2-9b-it".

(** ** [str.strip]

    With no argument [strip] removes white space from both ends. The
    white space of a [str] is that of Unicode: the ASCII controls 9-13 and
    28-31, the space, U+0085, U+00A0, U+1680, U+2000 to U+200A, U+2028,
    U+2029, U+202F, U+205F and U+3000. *)
Definition is_space (c : N) : bool :=
  ((9 <=? c) && (c <=? 13) || (28 <=? c) && (c <=? 32)
   || (c =? 133) || (c =? 160) || (c =? 5760)
   || (8192 <=? c) && (c <=? 8202)
   || (c =? 8232) || (c =? 8233) || (c =? 8239) || (c =? 8287)
   || (c =? 12288))%N.

Fixpoint lstrip (l : str) : str :=
  match l with
  | c :: rest => if is_space c then lstrip rest else l
  | [] => []
  end.

Definition strip (s : str) : str :=
  rev (lstrip (rev (lstrip s))).

(** ** [translate_text] (lines 50-67)

    [answer] is what [client.chat.completions.create] does: it raises, or
    it returns the content of the first choice. The prompt is the fixed
    text of lines 56-59 around [text]; the event keeps [text]. *)
Definition translate_text (text : option str) (answer : exn + str)
  : prog (option str) :=
  catch
    (content <- call (chat_completions_create text llama_model) answer ;;
     let translated_text := strip content in
     ret (Some translated_text))
    (fun e =>
       emit (print (Error_in_translation e)) ;;
       ret None).

(** ** [process_audio] (lines 69-119) *)

(** What the outside answers to one run of [process_audio]: the four
    readings of the clock, in the order of the calls, and the two services. *)
Record worker_env : Type := mkWorkerEnv {
  api_start_time : Q;
  transcribe_answer : exn + transcription;
  api_end_time : Q;
  translation_start_time : Q;
  translate_answer : exn + str;
  translation_end_time : Q
}.

Definition is_empty {A} (l : list A) : bool :=
  match l with
  | [] => true
  | _ :: _ => false
  end.

(** The truth value of a [str]: it is not the empty one. *)
Definition nonempty_string (s : str) : bool := negb (is_empty s).

Definition process_audio (audio_buffer : bytes) (env : worker_env)
  : prog unit :=
  finally
    (catch
       (let audio_data := audio_buffer in
        if is_empty audio_data then
          emit (print (Text "Recorded audio is empty. Skipping processing."))
        else
          emit (print (Text "Sending audio for transcription...")) ;;
          transcription <-
            call (transcriptions_create audio_data whisper_model)
                 (transcribe_answer env) ;;
          let api_duration := api_end_time env - api_start_time env in
          if negb (truthy transcription) || negb (hasattr_text transcription)
          then
            emit (print (Text "Transcription failed or returned empty."))
          else
            emit (print (You_said (text transcription))) ;;
            emit (print (Transcription_duration api_duration)) ;;
            translated_text <-
              translate_text (text transcription) (translate_answer env) ;;
            let translation_duration :=
              translation_end_time env - translation_start_time env in
            match translated_text with
            | Some t =>
                if nonempty_string t then
                  emit (print (Translated_text t)) ;;
                  emit (print (Translation_duration translation_duration))
                else
                  emit (print (Text "Translation failed or returned empty."))
            | None =>
                emit (print (Text "Translation failed or returned empty."))
            end ;;
            let total_duration := api_duration + translation_duration in
            emit (print (Total_duration total_duration)))
       (fun e =>
          match e with
          | APIStatusError status_code body =>
              error_message <-
                match response_error_message body with
                | inl raised => raise raised
                | inr m => ret m
                end ;;
              emit (print (Error_code status_code error_message))
          | _ => emit (print (Error_in_transcription_or_translation e))
          end))
    (emit audio_buffer_close).

(** ** [start_recording] (lines 121-143)

    [opened] is what [p.open] does, [now] what [time.time()] returns. *)
Definition start_recording (opened : exn + Stream) (now : Q) : prog unit :=
  with_record_lock
    (recording <- read is_recording ;;
     if recording then
       emit (print (Text "Already recording. Ignoring start request.")) ;;
       emit (showwarning (Text "Recording is already in progress."))
     else
       catch
         (emit (print (Text "Recording started...")) ;;
          set_is_recording true ;;
          set_frames [] ;;
          h <- call (p_open FORMAT CHANNELS RATE CHUNK) opened ;;
          set_stream (Some h) ;;
          set_recording_start_time now ;;
          emit (status_label_config (Text "Recording...")))
         (fun e =>
            emit (print (Error_starting_recording e)) ;;
            emit (showerror (Failed_to_start_recording e)) ;;
            set_is_recording false)).

(** ** [stop_recording] (lines 145-194) *)

(** What the outside answers to one call of [stop_recording]. *)
Record stop_env : Type := mkStopEnv {
  stop_stream_raises : option exn;
  close_raises : option exn;
  recording_end_time : Q
}.

(** Lines 148-167, under the lock. The value tells whether the function
    goes on after the [with] block ([true]) or has returned ([false]). *)
Definition stop_recording_locked (env : stop_env) : prog bool :=
  with_record_lock
    (recording <- read is_recording ;;
     if negb recording then
       emit (print (Text "Not currently recording. Ignoring stop request.")) ;;
       emit (showwarning (Text "No recording is in progress.")) ;;
       ret false
     else
       finally
         (catch
            (emit (print (Text "Recording stopped.")) ;;
             set_is_recording false ;;
             s <- read stream ;;
             on_stream s stream_stop_stream (stop_stream_raises env) ;;
             s <- read stream ;;
             on_stream s stream_close (close_raises env) ;;
             start <- read recording_start_time ;;
             let duration := recording_end_time env - start in
             emit (print (Recording_duration duration)) ;;
             emit (status_label_config (Recorded_seconds duration)) ;;
             ret true)
            (fun e =>
               emit (print (Error_stopping_recording e)) ;;
               emit (showerror (Failed_to_stop_recording e)) ;;
               ret false))
         (set_stream None)).

Definition lift_wave {A} (c : wave_error + A) : prog A :=
  match c with
  | inl e => raise (WaveException e)
  | inr a => ret a
  end.

(** Lines 171-177: the WAV file written into [audio_buffer]. *)
Definition encode (fs : list bytes) : wave_error + bytes :=
  wave_write CHANNELS (get_sample_size FORMAT) RATE (join fs).

(** Lines 169-194, on the value [fs] of [frames]: the file is written,
    read back as a check, and handed to a new [process_audio] thread. *)
Definition encode_and_dispatch (fs : list bytes) : prog unit :=
  audio_buffer <-
    catch
      (audio_buffer <- lift_wave (encode fs) ;;
       catch
         (wf_check <- lift_wave (wave_read audio_buffer) ;;
          let _ := getnframes wf_check in
          ret (Some audio_buffer))
         (fun e =>
            if is_wave_Error e then
              emit (print (WAV_file_is_malformed e)) ;;
              emit (showerror (Recorded_audio_is_malformed e)) ;;
              ret None
            else raise e))
      (fun e =>
         emit (print (Error_writing_audio_buffer e)) ;;
         emit (showerror (Failed_to_write_audio_buffer e)) ;;
         ret None) ;;
  match audio_buffer with
  | Some buffer => emit (thread_start buffer)
  | None => ret tt
  end.

Definition stop_recording (env : stop_env) : prog unit :=
  proceed <- stop_recording_locked env ;;
  if proceed then
    fs <- read frames ;;
    encode_and_dispatch fs
  else ret tt.

(** ** [record_audio] (lines 196-208) *)

(** What the outside answers to one iteration of the loop: the read, and
    the calls of [stop_recording] should the read fail. *)
Record iteration_env : Type := mkIterationEnv {
  read_answer : exn + bytes;
  on_failure : stop_env
}.

(** The body of the [while] loop, lines 200-208. *)
Definition record_audio_iteration (env : iteration_env) : prog unit :=
  with_record_lock
    (recording <- read is_recording ;;
     s <- read stream ;;
     match recording, s with
     | true, Some h =>
         catch
           (data <- call (stream_read h CHUNK) (read_answer env) ;;
            fs <- read frames ;;
            set_frames (fs ++ [data]))
           (fun e =>
              emit (print (Error_reading_audio_stream e)) ;;
              stop_recording (on_failure env))
     | _, _ => ret tt
     end) ;;
  emit (sleep SLEEP).

(** The loop, for as many iterations as the outside has answers: it ends
    as soon as [exit_event] is found set. *)
Fixpoint record_audio (envs : list iteration_env) : prog unit :=
  match envs with
  | [] => ret tt
  | env :: rest =>
      stop <- read exit_event ;;
      if stop then ret tt
      else record_audio_iteration env ;; record_audio rest
  end.

(** ** [on_closing] (lines 210-218)

    [confirmed] is the answer to [messagebox.askokcancel]. *)
Definition on_closing (confirmed : bool) (env : stop_env) : prog unit :=
  recording <- read is_recording ;;
  if recording then
    if confirmed then
      stop_recording env ;;
      exit_event_set ;;
      emit root_destroy
    else ret tt
  else
    exit_event_set ;;
    emit root_destroy.

(** ** The [finally] block of [main] (lines 262-272) *)
Definition main_finally (stop_raises close_raises : option exn) : prog unit :=
  with_record_lock
    (s <- read stream ;;
     match s with
     | Some h =>
         catch
           (call_unit (stream_stop_stream h) stop_raises ;;
            call_unit (stream_close h) close_raises)
           (fun e => emit (print (Error_during_stream_closure e)))
     | None => ret tt
     end) ;;
  emit p_terminate ;;
  emit (print (Text "PyAudio terminated.")).

(** ** The file [encode] writes, in closed form *)

(** The body of the [fmt ] chunk for the configuration of lines 30-33. *)
Definition fmt_body : bytes :=
  le16 WAVE_FORMAT_PCM ++ le16 CHANNELS ++ le32 RATE
    ++ le32 (CHANNELS * RATE * get_sample_size FORMAT)
    ++ le16 (CHANNELS * get_sample_size FORMAT)
    ++ le16 (get_sample_size FORMAT * 8).

Definition container (data : bytes) : bytes :=
  tag_RIFF ++ le32 (36 + N.of_nat (length data))
    ++ tag_WAVE
    ++ tag_fmt ++ le32 16 ++ fmt_body
    ++ tag_data ++ le32 (N.of_nat (length data)) ++ data.

(** The largest payload the 32-bit length fields of the header allow. *)
Definition max_payload : N := 4294967295 - 36.

(** ** Reading the trace *)

(** The audio buffers handed to [process_audio] threads, the latest first. *)
Fixpoint dispatched (tr : list event) : list bytes :=
  match tr with
  | [] => []
  | thread_start audio_buffer :: rest => audio_buffer :: dispatched rest
  | _ :: rest => dispatched rest
  end.

(** The files sent to the transcription service. *)
Fixpoint transcription_calls (tr : list event) : list bytes :=
  match tr with
  | [] => []
  | transcriptions_create file _ :: rest => file :: transcription_calls rest
  | _ :: rest => transcription_calls rest
  end.

(** The texts sent to the translation service. *)
Fixpoint translation_calls (tr : list event) : list (option str) :=
  match tr with
  | [] => []
  | chat_completions_create content _ :: rest =>
      content :: translation_calls rest
  | _ :: rest => translation_calls rest
  end.

(** The streams [stream.read] was called on. *)
Fixpoint reads_on (tr : list event) : list Stream :=
  match tr with
  | [] => []
  | stream_read h _ :: rest => h :: reads_on rest
  | _ :: rest => reads_on rest
  end.

(** A transcription that [process_audio] gives up on: the call raised, or
    line 87 rejects what it returned. *)
Definition transcription_failed (answer : exn + transcription) : bool :=
  match answer with
  | inl _ => true
  | inr t => negb (truthy t) || negb (hasattr_text t)
  end.

(** The device closes without an exception. *)
Definition closes_cleanly (env : stop_env) : bool :=
  match stop_stream_raises env, close_raises env with
  | None, None => true
  | _, _ => false
  end.

(** One iteration of the capture loop for each chunk the device delivers. *)
Definition delivering (chunks : list bytes) (env : stop_env)
  : list iteration_env :=
  map (fun data => mkIterationEnv (inr data) env) chunks.

(** The size in bytes of what [stream.read(CHUNK)] returns. *)
Definition chunk_bytes : N := CHUNK * CHANNELS * get_sample_size FORMAT.

(** ** The program as a transition system

    The steps the threads take on the globals: the two buttons, the window
    close, one iteration of the capture thread, one [process_audio] thread
    and the end of [main], each with what the outside answers to it. *)
Inductive action : Type :=
| Start (opened : exn + Stream) (now : Q)
| Stop (env : stop_env)
| Capture (env : iteration_env)
| Closing (confirmed : bool) (env : stop_env)
| Worker (audio_buffer : bytes) (env : worker_env)
| Finalize (stop_raises close_raises : option exn).

Definition perform (a : action) : prog unit :=
  match a with
  | Start opened now => start_recording opened now
  | Stop env => stop_recording env
  | Capture env =>
      stop <- read exit_event ;;
      if stop then ret tt else record_audio_iteration env
  | Closing confirmed env => on_closing confirmed env
  | Worker audio_buffer env => process_audio audio_buffer env
  | Finalize stop_raises close_raises => main_finally stop_raises close_raises
  end.

(** The globals a run leaves behind, however it ends. *)
Definition globals_of {A} (r : result A) : globals :=
  match r with
  | Returned _ g => g
  | Raised _ g => g
  | Blocked g => g
  end.

Fixpoint run (acts : list action) (g : globals) : globals :=
  match acts with
  | [] => g
  | a :: rest => run rest (globals_of (perform a g))
  end.

(** [is_recording] and [stream] agree: a stream while recording, [None]
    while idle. *)
Definition stream_agrees (g : globals) : Prop :=
  (is_recording g = true -> stream g <> None) /\
  (is_recording g = false -> stream g = None).

(** The same globals but for the trace. *)
Definition same_variables (g g' : globals) : Prop :=
  is_recording g' = is_recording g /\
  frames g' = frames g /\
  stream g' = stream g /\
  recording_start_time g' = recording_start_time g /\
  exit_event g' = exit_event g /\
  record_lock g' = record_lock g.

(** The globals [g] after the events [evs], the latest first. *)
Definition logging (evs : list event) (g : globals) : globals :=
  mkGlobals (is_recording g) (frames g) (stream g) (recording_start_time g)
    (exit_event g) (record_lock g) (evs ++ trace g).

(** The texts by which [process_audio] says that a run has failed before
    any translation: line 88, and the two of the handler, lines 115 and 117. *)
Definition failure_report (m : message) : bool :=
  match m with
  | Text s => String.eqb s "Transcription failed or returned empty."
  | Error_code _ _ => true
  | Error_in_transcription_or_translation _ => true
  | _ => false
  end.

(** A session in progress: recording on stream 0 since time 1, with one
    chunk of one sample in the buffer. *)
Definition session_in_progress : globals :=
  mkGlobals true [[x01; x00]] (Some (mkStream 0)) 1 false false [].

(** The streams [stream.close] was called on. *)
Fixpoint closed_streams (tr : list event) : list Stream :=
  match tr with
  | [] => []
  | stream_close h :: rest => h :: closed_streams rest
  | _ :: rest => closed_streams rest
  end.

(** How many times an audio buffer was closed. *)
Fixpoint buffer_closes (tr : list event) : nat :=
  match tr with
  | [] => 0
  | audio_buffer_close :: rest => S (buffer_closes rest)
  | _ :: rest => buffer_closes rest
  end.

(** What was printed, the latest first. *)
Fixpoint printed (tr : list event) : list message :=
  match tr with
  | [] => []
  | print m :: rest => m :: printed rest
  | _ :: rest => printed rest
  end.

(** The handler of [process_audio] raises: the transcription call has
    raised with a status, and line 114 cannot read a message off the body. *)
Definition handler_raises (answer : exn + transcription) : bool :=
  match answer with
  | inl (APIStatusError _ body) =>
      match response_error_message body with
      | inl _ => true
      | inr _ => false
      end
  | _ => false
  end.

(** * Facts *)

(** ** Little-endian fields *)

Section WaveFacts.

Local Open Scope N_scope.

Arguments low_byte : simpl never.

Lemma low_byte_to_N (v : N) : Byte.to_N (low_byte v) = (v mod 256)%N.
Proof.
  unfold low_byte.
  destruct (Byte.of_N (v mod 256)) as [b|] eqn:E.
  - now apply Byte.to_of_N.
  - apply Byte.of_N_None_iff in E.
    pose proof (N.mod_lt v 256). lia.
Qed.

Lemma low_byte_step (v : N) :
  (Byte.to_N (low_byte v) + 256 * (v / 256) = v)%N.
Proof.
  rewrite low_byte_to_N. pose proof (N.div_mod' v 256). lia.
Qed.

Lemma low_byte_small (v : N) :
  (v < 256)%N -> Byte.to_N (low_byte v) = v.
Proof.
  intros H. rewrite low_byte_to_N. now apply N.mod_small.
Qed.

Lemma unpack_le16 (v : N) : (v <= 65535)%N -> unpack_le (le16 v) = v.
Proof.
  intros H. unfold le16. cbn [unpack_le].
  rewrite (low_byte_small (v / 256)).
  - rewrite N.mul_0_r, N.add_0_r. apply low_byte_step.
  - apply N.Div0.div_lt_upper_bound; lia.
Qed.

Lemma unpack_le32 (v : N) : (v <= 4294967295)%N -> unpack_le (le32 v) = v.
Proof.
  intros H. unfold le32. cbn [unpack_le].
  replace (v / 65536)%N with (v / 256 / 256)%N
    by (rewrite N.Div0.div_div; reflexivity).
  replace (v / 16777216)%N with (v / 256 / 256 / 256)%N
    by (rewrite !N.Div0.div_div; reflexivity).
  rewrite (low_byte_small (v / 256 / 256 / 256)).
  - rewrite N.mul_0_r, N.add_0_r.
    now rewrite !low_byte_step.
  - rewrite !N.Div0.div_div. apply N.Div0.div_lt_upper_bound; lia.
Qed.

Lemma read_chunk_le32 (n0 n1 n2 n3 : byte) (v : N) (rest : bytes) :
  (v <= 4294967295)%N ->
  read_chunk (n0 :: n1 :: n2 :: n3 :: le32 v ++ rest)
  = Some ([n0; n1; n2; n3], v, rest).
Proof.
  intros H. pose proof (unpack_le32 v H) as E.
  unfold le32 in *. cbn [app read_chunk]. now rewrite E.
Qed.

(** ** The writer *)

Lemma pack_L_ok (v : N) : (v <= 4294967295)%N -> pack_L v = inr (le32 v).
Proof.
  intros H. unfold pack_L. now rewrite (proj2 (N.leb_le _ _) H).
Qed.

Lemma pack_L_overflow (v : N) :
  (4294967295 < v)%N -> pack_L v = inl struct_error.
Proof.
  intros H. unfold pack_L. now rewrite (proj2 (N.leb_gt _ _) H).
Qed.

(** [encode] succeeds exactly when the payload fits the length fields, and
    then writes the 44-byte header followed by the frames in order. *)
Lemma encode_closed_form (fs : list bytes) :
  encode fs =
  if (N.of_nat (length (join fs)) <=? max_payload)%N
  then inr (container (join fs))
  else inl struct_error.
Proof.
  unfold encode, wave_write, container, max_payload.
  set (data := join fs). set (len := N.of_nat (length data)).
  change (CHANNELS <? 1)%N with false.
  change ((get_sample_size FORMAT <? 1) || (4 <? get_sample_size FORMAT))%N
    with false.
  change (RATE <? 1)%N with false. cbv iota.
  change (get_sample_size FORMAT) with 2%N. change CHANNELS with 1%N.
  change RATE with 16000%N.
  set (datalength := (len / (1 * 2) * 1 * 2)%N).
  assert (Hdl : (datalength <= len)%N).
  { unfold datalength. rewrite N.mul_1_l, N.mul_1_r.
    rewrite N.mul_comm. apply N.Div0.mul_div_le. }
  unfold write_header.
  destruct (N.leb_spec len (4294967295 - 36)) as [Hfit | Hbig].
  - rewrite (pack_L_ok (36 + datalength)) by lia.
    rewrite (pack_L_ok (datalength)) by lia.
    cbn [wbind pack_L pack_H N.leb N.compare Pos.compare Pos.compare_cont
         N.mul Pos.mul Pos.add].
    destruct (N.eqb_spec datalength len) as [E | NE].
    + rewrite E. reflexivity.
    + unfold patchheader.
      rewrite (pack_L_ok (36 + len)) by lia.
      rewrite (pack_L_ok (len)) by lia.
      reflexivity.
  - destruct (N.leb_spec (36 + datalength) 4294967295) as [Hd | Hd].
    + rewrite (pack_L_ok (36 + datalength)) by lia.
      rewrite (pack_L_ok (datalength)) by lia.
      cbn [wbind pack_L pack_H N.leb N.compare Pos.compare Pos.compare_cont
           N.mul Pos.mul Pos.add].
      destruct (N.eqb_spec datalength len) as [E | NE]; [lia|].
      unfold patchheader.
      rewrite (pack_L_overflow (36 + len)) by lia.
      reflexivity.
    + rewrite (pack_L_overflow (36 + datalength)) by lia.
      reflexivity.
Qed.

(** ** The reader *)

Lemma read_chunks_step (fuel : nat) (fmt : option (N * N * N))
    (n0 n1 n2 n3 : byte) (size : N) (rest : bytes) :
  size <= 4294967295 ->
  read_chunks (S fuel) fmt (n0 :: n1 :: n2 :: n3 :: le32 size ++ rest)
  = let name := [n0; n1; n2; n3] in
    let body := firstn (N.to_nat size) rest in
    if bytes_eqb name tag_fmt then
      do f <~ read_fmt_chunk body;
      read_chunks fuel (Some f) (skip_chunk size rest)
    else if bytes_eqb name tag_data then
      match fmt with
      | None => inl data_before_fmt
      | Some (nchannels, sampwidth, framerate) =>
          inr {| r_nchannels := nchannels;
                 r_sampwidth := sampwidth;
                 r_framerate := framerate;
                 r_nframes := size / (nchannels * sampwidth);
                 r_data := body |}
      end
    else read_chunks fuel fmt (skip_chunk size rest).
Proof.
  intros H. cbn [read_chunks]. now rewrite read_chunk_le32.
Qed.

Lemma read_fmt_body : read_fmt_chunk fmt_body = inr (1, 2, 16000).
Proof. vm_compute. reflexivity. Qed.

Lemma length_fmt_body : length fmt_body = 16%nat.
Proof. reflexivity. Qed.

(** The reader accepts the file of a payload that fits, and finds in it the
    configuration of lines 30-33 and the payload itself. *)
Lemma wave_read_container (data : bytes) :
  N.of_nat (length data) <= max_payload ->
  wave_read (container data)
  = inr {| r_nchannels := 1;
           r_sampwidth := 2;
           r_framerate := 16000;
           r_nframes := N.of_nat (length data) / 2;
           r_data := data |}.
Proof.
  unfold max_payload. intros Hfit.
  unfold container, wave_read.
  set (len := N.of_nat (length data)) in *.
  remember (tag_fmt ++ le32 16 ++ fmt_body ++ tag_data ++ le32 len ++ data)
    as chunks eqn:Echunks.
  assert (Hchunks : length chunks = (32 + length data)%nat)
    by (rewrite Echunks; reflexivity).
  unfold tag_RIFF at 1. cbn [app].
  rewrite read_chunk_le32 by lia.
  change (bytes_eqb [x52; x49; x46; x46] tag_RIFF) with true. cbv iota.
  rewrite (firstn_all2 (n := N.to_nat (36 + len)) (tag_WAVE ++ chunks)).
  2:{ rewrite length_app, Hchunks. cbn [length tag_WAVE]. lia. }
  change (tag_WAVE ++ chunks) with (x57 :: x41 :: x56 :: x45 :: chunks).
  cbn [firstn skipn length].
  change (bytes_eqb [x57; x41; x56; x45] tag_WAVE) with true. cbv iota.
  rewrite Hchunks, Echunks.
  change (S (S (S (S (32 + length data))))) with (S (S (34 + length data))).
  unfold tag_fmt at 1. cbn [app].
  rewrite read_chunks_step by lia. cbv zeta.
  change (bytes_eqb [x66; x6d; x74; x20] tag_fmt) with true. cbv iota.
  change (N.to_nat 16) with (length fmt_body).
  rewrite firstn_app, firstn_all, Nat.sub_diag, firstn_O, app_nil_r.
  rewrite read_fmt_body. cbn [wbind].
  unfold skip_chunk. change (N.to_nat (16 + 16 mod 2)) with (length fmt_body).
  rewrite skipn_app, skipn_all, Nat.sub_diag, skipn_O. cbn [app].
  unfold tag_data at 1. cbn [app].
  rewrite read_chunks_step by lia. cbv zeta.
  change (bytes_eqb [x64; x61; x74; x61] tag_fmt) with false.
  change (bytes_eqb [x64; x61; x74; x61] tag_data) with true. cbv iota.
  rewrite firstn_all2 by lia.
  reflexivity.
Qed.

End WaveFacts.

(** ** Running the program *)

Section ProgramFacts.

Local Open Scope Q_scope.

(** Unfolds the plumbing of the monad and nothing of the WAV code. *)
Ltac run_prog :=
  cbv beta iota zeta delta
    [bind ret raise catch Monad_prog Exc_prog prog_bind prog_ret prog_catch
     finally with_record_lock read emit call call_unit on_stream lift_wave
     set_is_recording set_frames set_stream set_recording_start_time
     set_record_lock exit_event_set
     is_recording frames stream recording_start_time exit_event record_lock
     trace negb andb orb].

Ltac open_globals g :=
  destruct g as [recording fs s start stop lock tr]; cbn [is_recording frames
    stream recording_start_time exit_event record_lock trace] in *; subst.

Lemma encode_and_dispatch_fits (fs : list bytes) (g : globals) :
  (N.of_nat (length (join fs)) <= max_payload)%N ->
  encode_and_dispatch fs g
  = Returned tt
      (mkGlobals (is_recording g) (frames g) (stream g)
         (recording_start_time g) (exit_event g) (record_lock g)
         (thread_start (container (join fs)) :: trace g)).
Proof.
  intros Hfit. unfold encode_and_dispatch.
  rewrite encode_closed_form, (proj2 (N.leb_le _ _) Hfit).
  run_prog. rewrite (wave_read_container _ Hfit). reflexivity.
Qed.

Lemma encode_and_dispatch_overflow (fs : list bytes) (g : globals) :
  (max_payload < N.of_nat (length (join fs)))%N ->
  encode_and_dispatch fs g
  = Returned tt
      (mkGlobals (is_recording g) (frames g) (stream g)
         (recording_start_time g) (exit_event g) (record_lock g)
         (showerror (Failed_to_write_audio_buffer (WaveException struct_error))
          :: print (Error_writing_audio_buffer (WaveException struct_error))
          :: trace g)).
Proof.
  intros Hbig. unfold encode_and_dispatch.
  rewrite encode_closed_form, (proj2 (N.leb_gt _ _) Hbig).
  reflexivity.
Qed.

(** Encoding never raises and never blocks; it only adds to the trace. *)
Lemma encode_and_dispatch_returns (fs : list bytes) (g : globals) :
  exists g',
    encode_and_dispatch fs g = Returned tt g' /\ same_variables g g'.
Proof.
  destruct (N.leb_spec (N.of_nat (length (join fs))) max_payload) as [H | H].
  - rewrite (encode_and_dispatch_fits fs g H).
    eexists; split; [reflexivity | repeat split].
  - rewrite (encode_and_dispatch_overflow fs g H).
    eexists; split; [reflexivity | repeat split].
Qed.

(** ** [start_recording] *)

(** C6. [start_recording] called while [is_recording] is set answers with
    the "already in progress" warning and changes none of the globals:
    [frames], [recording_start_time], [is_recording] and [stream] keep
    their values, and [p.open] is not called. If the lock is held the call
    waits, and changes nothing either. *)
Theorem start_while_recording_changes_nothing
    (g : globals) (opened : exn + Stream) (now : Q) :
  is_recording g = true ->
  same_variables g (globals_of (start_recording opened now g)) /\
  (record_lock g = false ->
   exists g',
     start_recording opened now g = Returned tt g' /\
     trace g' = showwarning (Text "Recording is already in progress.")
                :: print (Text "Already recording. Ignoring start request.")
                :: trace g).
Proof.
  intros Hrec. open_globals g. destruct lock.
  - split; [repeat split | discriminate].
  - split; [repeat split |].
    intros _. eexists. split; reflexivity.
Qed.

Lemma start_while_recording_changes_nothing_witness :
  same_variables session_in_progress
    (globals_of (start_recording (inr (mkStream 1)) 9 session_in_progress)) /\
  exists g',
    start_recording (inr (mkStream 1)) 9 session_in_progress
    = Returned tt g' /\
    frames g' = [[x01; x00]].
Proof.
  destruct (start_while_recording_changes_nothing session_in_progress
              (inr (mkStream 1)) 9 eq_refl) as (Hsame & Hwarns).
  split; [exact Hsame |].
  destruct (Hwarns eq_refl) as (g' & Hrun & _).
  exists g'. split; [exact Hrun |].
  rewrite Hrun in Hsame. apply Hsame.
Defined.

(** From idle, with the device opening: recording, an empty buffer, the
    new stream and the time of the call. *)
Lemma start_recording_opens (g : globals) (h : Stream) (now : Q) :
  is_recording g = false -> record_lock g = false ->
  start_recording (inr h) now g
  = Returned tt
      (mkGlobals true [] (Some h) now (exit_event g) false
         (status_label_config (Text "Recording...")
          :: p_open FORMAT CHANNELS RATE CHUNK
          :: print (Text "Recording started...") :: trace g)).
Proof. intros Hrec Hlock. open_globals g. reflexivity. Qed.

(** From idle, with the device refusing: still idle, the buffer emptied. *)
Lemma start_recording_refused (g : globals) (e : exn) (now : Q) :
  is_recording g = false -> record_lock g = false ->
  start_recording (inl e) now g
  = Returned tt
      (mkGlobals false [] (stream g) (recording_start_time g) (exit_event g)
         false
         (showerror (Failed_to_start_recording e)
          :: print (Error_starting_recording e)
          :: p_open FORMAT CHANNELS RATE CHUNK
          :: print (Text "Recording started...") :: trace g)).
Proof. intros Hrec Hlock. open_globals g. reflexivity. Qed.

(** ** [stop_recording] *)

Lemma stop_recording_idle (g : globals) (env : stop_env) :
  is_recording g = false -> record_lock g = false ->
  stop_recording env g
  = Returned tt
      (mkGlobals false (frames g) (stream g) (recording_start_time g)
         (exit_event g) false
         (showwarning (Text "No recording is in progress.")
          :: print (Text "Not currently recording. Ignoring stop request.")
          :: trace g)).
Proof. intros Hrec Hlock. open_globals g. reflexivity. Qed.

(** While recording, with the device closing cleanly: idle, no stream, and
    the buffer goes to the encoder as it stands. *)
Lemma stop_recording_clean (g : globals) (h : Stream) (env : stop_env) :
  is_recording g = true -> record_lock g = false -> stream g = Some h ->
  closes_cleanly env = true ->
  stop_recording env g
  = encode_and_dispatch (frames g)
      (mkGlobals false (frames g) None (recording_start_time g)
         (exit_event g) false
         (status_label_config
            (Recorded_seconds (recording_end_time env - recording_start_time g))
          :: print
               (Recording_duration
                  (recording_end_time env - recording_start_time g))
          :: stream_close h :: stream_stop_stream h
          :: print (Text "Recording stopped.") :: trace g)).
Proof.
  intros Hrec Hlock Hs Hclean. open_globals g.
  destruct env as [[e1|] [e2|] t]; try discriminate Hclean.
  reflexivity.
Qed.

(** While recording, with the device failing to close: the error is shown,
    the globals are idle with no stream, and nothing is encoded. *)
Lemma stop_recording_close_fails (g : globals) (env : stop_env) :
  is_recording g = true -> record_lock g = false ->
  closes_cleanly env = false \/ stream g = None ->
  exists (e : exn) (calls : list event),
    stop_recording env g
    = Returned tt
        (mkGlobals false (frames g) None (recording_start_time g)
           (exit_event g) false
           (showerror (Failed_to_stop_recording e)
            :: print (Error_stopping_recording e)
            :: calls ++ print (Text "Recording stopped.") :: trace g)) /\
    dispatched calls = [].
Proof.
  intros Hrec Hlock Hfail. open_globals g.
  destruct s as [h|].
  - destruct Hfail as [Hfail | Hfail]; [| discriminate Hfail].
    destruct env as [[e1|] [e2|] t]; try discriminate Hfail.
    + exists e1, [stream_stop_stream h]. split; reflexivity.
    + exists e1, [stream_stop_stream h]. split; reflexivity.
    + exists e2, [stream_close h; stream_stop_stream h]. split; reflexivity.
  - exists AttributeError, []. split; reflexivity.
Qed.

Lemma dispatched_app (a b : list event) :
  dispatched (a ++ b) = dispatched a ++ dispatched b.
Proof.
  induction a as [| ev a IH]; [reflexivity |].
  destruct ev; cbn [app dispatched]; rewrite ?IH; reflexivity.
Qed.

(** C8. [stop_recording] with the lock free always returns with
    [is_recording] cleared. When it is called while recording and stopping
    or closing the stream raises, the error is printed and shown, [stream]
    is [None], and nothing is handed to a [process_audio] thread. *)
Theorem stop_never_leaves_recording (g : globals) (env : stop_env) :
  record_lock g = false ->
  exists g',
    stop_recording env g = Returned tt g' /\
    is_recording g' = false /\
    record_lock g' = false /\
    (is_recording g = true ->
     closes_cleanly env = false \/ stream g = None ->
     stream g' = None /\
     dispatched (trace g') = dispatched (trace g) /\
     exists (e : exn) (earlier : list event),
       trace g' = showerror (Failed_to_stop_recording e)
                  :: print (Error_stopping_recording e) :: earlier).
Proof.
  intros Hlock.
  assert (Hfails :
            is_recording g = true ->
            closes_cleanly env = false \/ stream g = None ->
            exists g',
              stop_recording env g = Returned tt g' /\
              is_recording g' = false /\
              record_lock g' = false /\
              stream g' = None /\
              dispatched (trace g') = dispatched (trace g) /\
              exists (e : exn) (earlier : list event),
                trace g' = showerror (Failed_to_stop_recording e)
                           :: print (Error_stopping_recording e) :: earlier).
  { intros Hrec Hfail.
    destruct (stop_recording_close_fails g env Hrec Hlock Hfail)
      as (e & calls & Hrun & Hcalls).
    eexists. split; [exact Hrun |]. repeat split.
    - cbn [trace dispatched]. now rewrite dispatched_app, Hcalls.
    - eexists _, _. reflexivity. }
  destruct (is_recording g) eqn:Hrec.
  - destruct (closes_cleanly env) eqn:Hclean;
      [destruct (stream g) as [h|] eqn:Hs |].
    + rewrite (stop_recording_clean g h env Hrec Hlock Hs Hclean).
      match goal with
      | |- exists g', encode_and_dispatch ?fs ?g0 = _ /\ _ =>
          destruct (encode_and_dispatch_returns fs g0)
            as (g' & Hrun & Hidle & _ & _ & _ & _ & Hfree)
      end.
      exists g'.
      split; [exact Hrun |]. split; [exact Hidle |]. split; [exact Hfree |].
      intros _ [Hno | Hno]; discriminate Hno.
    + destruct (Hfails eq_refl (or_intror eq_refl))
        as (g' & Hrun & Hidle & Hfree & Hrest).
      exists g'. repeat split; try assumption; now destruct Hrest.
    + destruct (Hfails eq_refl (or_introl eq_refl))
        as (g' & Hrun & Hidle & Hfree & Hrest).
      exists g'. repeat split; try assumption; now destruct Hrest.
  - rewrite (stop_recording_idle g env Hrec Hlock).
    eexists. split; [reflexivity |]. repeat split; discriminate.
Qed.

Lemma stop_never_leaves_recording_witness :
  exists g',
    stop_recording (mkStopEnv None (Some (OSError (-9988))) 12)
      (mkGlobals true [[x01; x02]] (Some (mkStream 0)) 7 false false [])
    = Returned tt g' /\
    is_recording g' = false.
Proof.
  destruct (stop_never_leaves_recording
              (mkGlobals true [[x01; x02]] (Some (mkStream 0)) 7 false false [])
              (mkStopEnv None (Some (OSError (-9988))) 12) eq_refl)
    as (g' & Hrun & Hidle & _).
  exists g'. split; assumption.
Defined.

Lemma stop_recording_held (g : globals) (env : stop_env) :
  record_lock g = true -> stop_recording env g = Blocked g.
Proof. intros Hlock. open_globals g. reflexivity. Qed.

(** ** The capture loop *)

Lemma capture_held (g : globals) (env : iteration_env) :
  record_lock g = true -> record_audio_iteration env g = Blocked g.
Proof. intros Hlock. open_globals g. reflexivity. Qed.

(** A chunk read while recording goes to the end of [frames]. *)
Lemma capture_appends (g : globals) (h : Stream) (data : bytes)
    (env : iteration_env) :
  is_recording g = true -> stream g = Some h -> record_lock g = false ->
  read_answer env = inr data ->
  record_audio_iteration env g
  = Returned tt
      (mkGlobals true (frames g ++ [data]) (Some h) (recording_start_time g)
         (exit_event g) false
         (sleep SLEEP :: stream_read h CHUNK :: trace g)).
Proof.
  intros Hrec Hs Hlock Hread. open_globals g.
  destruct env as [answer failure]. cbn in Hread. subst answer. reflexivity.
Qed.

(** A read that raises while recording: the handler calls [stop_recording]
    with the lock still held, and the iteration never ends. *)
Lemma capture_read_fails (g : globals) (h : Stream) (e : exn)
    (env : iteration_env) :
  is_recording g = true -> stream g = Some h -> record_lock g = false ->
  read_answer env = inl e ->
  record_audio_iteration env g
  = Blocked
      (mkGlobals true (frames g) (Some h) (recording_start_time g)
         (exit_event g) true
         (print (Error_reading_audio_stream e)
          :: stream_read h CHUNK :: trace g)).
Proof.
  intros Hrec Hs Hlock Hread. open_globals g.
  destruct env as [answer failure]. cbn in Hread. subst answer. reflexivity.
Qed.

(** With nothing to record the iteration only sleeps. *)
Lemma capture_idle (g : globals) (env : iteration_env) :
  is_recording g = false \/ stream g = None -> record_lock g = false ->
  record_audio_iteration env g = Returned tt (logging [sleep SLEEP] g).
Proof.
  intros Hidle Hlock. open_globals g.
  destruct Hidle as [-> | ->]; [reflexivity | destruct recording; reflexivity].
Qed.

(** The loop appends what the device delivers, in the order of the reads. *)
Lemma record_audio_delivers (chunks : list bytes) (env : stop_env) :
  forall (g : globals) (h : Stream),
    is_recording g = true -> stream g = Some h -> record_lock g = false ->
    exit_event g = false ->
    exists tr,
      record_audio (delivering chunks env) g
      = Returned tt
          (mkGlobals true (frames g ++ chunks) (Some h)
             (recording_start_time g) false false tr) /\
      dispatched tr = dispatched (trace g).
Proof.
  induction chunks as [| data chunks IH]; intros g h Hrec Hs Hlock Hexit.
  - exists (trace g). rewrite app_nil_r. open_globals g.
    split; reflexivity.
  - cbn [delivering map record_audio].
    change (map (fun data => mkIterationEnv (inr data) env) chunks)
      with (delivering chunks env).
    cbv beta iota delta [bind Monad_prog prog_bind read].
    rewrite Hexit.
    rewrite (capture_appends g h data (mkIterationEnv (inr data) env)
               Hrec Hs Hlock eq_refl).
    destruct (IH (mkGlobals true (frames g ++ [data]) (Some h)
                    (recording_start_time g) (exit_event g) false
                    (sleep SLEEP :: stream_read h CHUNK :: trace g)) h
                eq_refl eq_refl eq_refl Hexit) as (tr & Hrun & Htr).
    exists tr. rewrite Hrun. cbn [frames recording_start_time].
    rewrite <- app_assoc. split; [reflexivity | exact Htr].
Qed.

(** ** [process_audio] *)

(** The events of [l] that come after those of [tl]. *)
Ltac events_before l tl :=
  lazymatch l with
  | tl => constr:(@nil event)
  | ?ev :: ?rest => let p := events_before rest tl in constr:(ev :: p)
  end.

Ltac run_worker :=
  cbv beta iota zeta delta
    [process_audio translate_text is_empty hasattr_text truthy text
     api_start_time transcribe_answer api_end_time translation_start_time
     translate_answer translation_end_time logging transcription_failed
     handler_raises response_error_message globals_of
     bind ret raise catch Monad_prog Exc_prog prog_bind prog_ret prog_catch
     finally read emit call
     is_recording frames stream recording_start_time exit_event record_lock
     trace negb andb orb].

Ltac give_events tr :=
  lazymatch goal with
  | |- exists evs, mkGlobals _ _ _ _ _ _ ?l = _ /\ _ =>
      let p := events_before l tr in
      exists p; split; [reflexivity |]
  end.

Ltac worker_facts :=
  repeat split;
  try discriminate;
  try (intros; discriminate);
  try (intros [H | H]; discriminate H);
  try (intros; eexists; reflexivity);
  try (intros; eexists _, _; split; reflexivity).

(** What a run of [process_audio] leaves behind. It changes no global,
    starts no thread and reads no stream; it calls the transcription
    service once unless the buffer is empty, and the translation service
    once, with the text transcribed, unless the transcription has failed;
    when the transcription has failed it says so last, before closing the
    buffer. The run returns, unless the handler raises: then the exception
    leaves [process_audio], the buffer closed. *)
Lemma process_audio_trace (audio_buffer : bytes) (env : worker_env)
    (g : globals) :
  exists evs,
    globals_of (process_audio audio_buffer env g) = logging evs g /\
    dispatched evs = [] /\
    reads_on evs = [] /\
    transcription_calls evs
    = (if is_empty audio_buffer then [] else [audio_buffer]) /\
    translation_calls evs
    = (if is_empty audio_buffer then []
       else match transcribe_answer env with
            | inl _ => []
            | inr t => if transcription_failed (inr t) then [] else [text t]
            end) /\
    (is_empty audio_buffer = false ->
     transcription_failed (transcribe_answer env) = true ->
     handler_raises (transcribe_answer env) = false ->
     exists m rest,
       evs = audio_buffer_close :: print m :: rest /\
       failure_report m = true) /\
    (is_empty audio_buffer = true \/
     handler_raises (transcribe_answer env) = false ->
     process_audio audio_buffer env g = Returned tt (logging evs g)) /\
    (is_empty audio_buffer = false ->
     handler_raises (transcribe_answer env) = true ->
     exists e, process_audio audio_buffer env g = Raised e (logging evs g)).
Proof.
  destruct g as [recording fs s start stop lock tr].
  destruct env as [t0 transcribed t1 t2 translated t3].
  destruct audio_buffer as [| b audio_buffer].
  { run_worker. give_events tr. worker_facts. }
  destruct transcribed as [e | [[|] [said|]]].
  - destruct e as [errno | | | e | code [| | [[| [m|]]|]] |];
      run_worker; give_events tr; worker_facts.
  - destruct translated as [e | content].
    + run_worker. give_events tr. worker_facts.
    + run_worker. destruct (nonempty_string (strip content));
        give_events tr; worker_facts.
  - run_worker. give_events tr. worker_facts.
  - run_worker. give_events tr. worker_facts.
  - run_worker. give_events tr. worker_facts.
Qed.

Lemma translation_calls_app (a b : list event) :
  translation_calls (a ++ b) = translation_calls a ++ translation_calls b.
Proof.
  induction a as [| ev a IH]; [reflexivity |].
  destruct ev; cbn [app translation_calls]; rewrite ?IH; reflexivity.
Qed.

Lemma transcription_calls_app (a b : list event) :
  transcription_calls (a ++ b)
  = transcription_calls a ++ transcription_calls b.
Proof.
  induction a as [| ev a IH]; [reflexivity |].
  destruct ev; cbn [app transcription_calls]; rewrite ?IH; reflexivity.
Qed.

Lemma reads_on_app (a b : list event) :
  reads_on (a ++ b) = reads_on a ++ reads_on b.
Proof.
  induction a as [| ev a IH]; [reflexivity |].
  destruct ev; cbn [app reads_on]; rewrite ?IH; reflexivity.
Qed.

(** A run of [process_audio] whose transcription fails in the way line 87
    and the handler know (the call raises, or it returns something false
    or without a [text] attribute) makes no call to the translation
    service. When the buffer is not empty and the handler can read the
    error, the run returns, and it ends by printing the failure and
    closing the buffer. *)
Theorem failed_transcription_never_translates
    (audio_buffer : bytes) (env : worker_env) (g : globals) :
  transcription_failed (transcribe_answer env) = true ->
  translation_calls (trace (globals_of (process_audio audio_buffer env g)))
  = translation_calls (trace g) /\
  (audio_buffer <> [] ->
   handler_raises (transcribe_answer env) = false ->
   exists g' m rest,
     process_audio audio_buffer env g = Returned tt g' /\
     trace g' = audio_buffer_close :: print m :: rest /\
     failure_report m = true).
Proof.
  intros Hfailed.
  destruct (process_audio_trace audio_buffer env g)
    as (evs & Hrun & _ & _ & _ & Hcalls & Hreport & Hreturns & _).
  split.
  - rewrite Hrun. cbn [logging trace]. rewrite translation_calls_app, Hcalls.
    destruct (is_empty audio_buffer); [reflexivity |].
    destruct (transcribe_answer env) as [e | t]; [reflexivity |].
    rewrite Hfailed. reflexivity.
  - intros Hbuf Hreads.
    destruct audio_buffer as [| b rest]; [now elim Hbuf |].
    destruct (Hreport eq_refl Hfailed Hreads) as (m & earlier & -> & Hm).
    eexists _, m, (earlier ++ trace g).
    split; [exact (Hreturns (or_intror Hreads)) |].
    split; [reflexivity | exact Hm].
Qed.

Lemma failed_transcription_never_translates_witness :
  translation_calls
    (trace
       (globals_of
          (process_audio [x52; x49]
             (mkWorkerEnv 0 (inl (APIStatusError 429 body_not_json)) 2 2
                (inr (str_of "hello")) 3)
             initial)))
  = translation_calls (trace initial).
Proof.
  apply (failed_transcription_never_translates [x52; x49]
           (mkWorkerEnv 0 (inl (APIStatusError 429 body_not_json)) 2 2
              (inr (str_of "hello")) 3)
           initial eq_refl).
Defined.

(** C7. The claim fails on the code for a transcription that is empty in
    the plain sense: an object whose [text] is the empty string. Line 87
    tests the object, not its text, so the run does not stop: it prints
    the empty text and calls the translation service with it. *)
Theorem empty_transcription_is_translated
    (audio_buffer : bytes) (env : worker_env) (g : globals) :
  audio_buffer <> [] ->
  transcribe_answer env = inr (mkTranscription true (Some [])) ->
  transcription_failed (transcribe_answer env) = false /\
  exists g',
    process_audio audio_buffer env g = Returned tt g' /\
    translation_calls (trace g') = Some [] :: translation_calls (trace g).
Proof.
  intros Hbuf Hempty.
  destruct (process_audio_trace audio_buffer env g)
    as (evs & _ & _ & _ & _ & Hcalls & _ & Hreturns & _).
  rewrite Hempty in *. split; [reflexivity |].
  exists (logging evs g). split; [apply Hreturns; now right |].
  cbn [logging trace]. rewrite translation_calls_app, Hcalls.
  destruct audio_buffer as [| b rest]; [now elim Hbuf | reflexivity].
Qed.

Lemma empty_transcription_is_translated_witness :
  exists g',
    process_audio [x52; x49]
      (mkWorkerEnv 0 (inr (mkTranscription true (Some []))) 2 2
         (inr (str_of "I cannot translate an empty text.")) 3)
      initial
    = Returned tt g' /\
    translation_calls (trace g') = [Some []].
Proof.
  destruct (empty_transcription_is_translated [x52; x49]
              (mkWorkerEnv 0 (inr (mkTranscription true (Some []))) 2 2
                 (inr (str_of "I cannot translate an empty text.")) 3)
              initial) as (_ & g' & Hrun & Hcalls);
    [discriminate | reflexivity |].
  exists g'. split; assumption.
Defined.

(** ** The lock *)

(** While the program is recording and the lock is held, no step of any
    thread changes a variable or starts a [process_audio] thread. *)
Lemma held_lock_freezes (a : action) (g : globals) :
  record_lock g = true -> is_recording g = true ->
  same_variables g (globals_of (perform a g)) /\
  dispatched (trace (globals_of (perform a g))) = dispatched (trace g).
Proof.
  intros Hlock Hrec.
  destruct a as [opened now | env | env | [|] env | buf env | e1 e2].
  - open_globals g. split; [repeat split | reflexivity].
  - cbn [perform]. rewrite (stop_recording_held g env Hlock).
    split; [repeat split | reflexivity].
  - open_globals g. destruct stop; split; try reflexivity; repeat split.
  - open_globals g. split; [repeat split | reflexivity].
  - open_globals g. split; [repeat split | reflexivity].
  - cbn [perform].
    destruct (process_audio_trace buf env g) as (evs & -> & Hd & _).
    split; [repeat split |].
    cbn [globals_of logging trace]. now rewrite dispatched_app, Hd.
  - open_globals g. split; [repeat split | reflexivity].
Qed.

Lemma held_lock_for_good (acts : list action) :
  forall g : globals,
    record_lock g = true -> is_recording g = true ->
    same_variables g (run acts g) /\
    dispatched (trace (run acts g)) = dispatched (trace g).
Proof.
  induction acts as [| a acts IH]; intros g Hlock Hrec.
  - split; [repeat split | reflexivity].
  - cbn [run].
    destruct (held_lock_freezes a g Hlock Hrec) as (Hsame & Hd).
    destruct Hsame as (H1 & H2 & H3 & H4 & H5 & H6).
    destruct (IH (globals_of (perform a g)))
      as ((K1 & K2 & K3 & K4 & K5 & K6) & Hd');
      [now rewrite H6 | now rewrite H1 |].
    split; [| now rewrite Hd'].
    repeat split; etransitivity; eassumption.
Qed.

(** C1. A read that raises while recording does not stop the session. The
    handler of line 205 calls [stop_recording] inside the [with
    record_lock] block of line 200, and [stop_recording] waits on line 148
    for the same lock: the iteration blocks with [is_recording] still set,
    the stream still in place and the lock held, and whatever the threads
    do next, the program stays recording and the session is never handed
    to [process_audio]. *)
Theorem read_failure_blocks_the_capture_loop
    (g : globals) (h : Stream) (e : exn) (env : iteration_env) :
  is_recording g = true -> stream g = Some h -> record_lock g = false ->
  read_answer env = inl e ->
  exists g',
    record_audio_iteration env g = Blocked g' /\
    is_recording g' = true /\
    stream g' = Some h /\
    record_lock g' = true /\
    frames g' = frames g /\
    trace g' = print (Error_reading_audio_stream e)
               :: stream_read h CHUNK :: trace g /\
    forall acts : list action,
      is_recording (run acts g') = true /\
      record_lock (run acts g') = true /\
      dispatched (trace (run acts g')) = dispatched (trace g).
Proof.
  intros Hrec Hs Hlock Hread.
  rewrite (capture_read_fails g h e env Hrec Hs Hlock Hread).
  eexists. split; [reflexivity |]. do 5 (split; [reflexivity |]).
  intros acts.
  match goal with
  | |- is_recording (run acts ?g0) = true /\ _ =>
      destruct (held_lock_for_good acts g0 eq_refl eq_refl)
        as ((Hstill & _ & _ & _ & _ & Hheld) & Hnone)
  end.
  split; [exact Hstill |]. split; [exact Hheld | exact Hnone].
Qed.

(** The session of the example: recording on stream 0 since time 1, one
    chunk of two samples in the buffer. *)
Lemma read_failure_blocks_the_capture_loop_witness :
  exists g',
    record_audio_iteration
      (mkIterationEnv (inl (OSError (-9999))) (mkStopEnv None None 2))
      (mkGlobals true [[x01; x00; x02; x00]] (Some (mkStream 0)) 1
         false false [])
    = Blocked g' /\
    is_recording g' = true /\
    record_lock g' = true /\
    is_recording (run [Stop (mkStopEnv None None 3)] g') = true.
Proof.
  destruct (read_failure_blocks_the_capture_loop
              (mkGlobals true [[x01; x00; x02; x00]] (Some (mkStream 0)) 1
                 false false [])
              (mkStream 0) (OSError (-9999))
              (mkIterationEnv (inl (OSError (-9999))) (mkStopEnv None None 2))
              eq_refl eq_refl eq_refl eq_refl)
    as (g' & Hrun & Hrec & _ & Hlock & _ & _ & Hlater).
  exists g'. repeat split; try assumption.
  apply (Hlater [Stop (mkStopEnv None None 3)]).
Defined.

(** ** The agreement of [is_recording] and [stream] *)

(** With the lock free [stop_recording] returns, idle; it clears [stream]
    when it was recording and touches no variable when it was not. *)
Lemma stop_recording_returns (g : globals) (env : stop_env) :
  record_lock g = false ->
  exists g',
    stop_recording env g = Returned tt g' /\
    is_recording g' = false /\
    record_lock g' = false /\
    exit_event g' = exit_event g /\
    frames g' = frames g /\
    (is_recording g = true -> stream g' = None) /\
    (is_recording g = false -> stream g' = stream g).
Proof.
  intros Hlock.
  destruct (is_recording g) eqn:Hrec.
  - destruct (closes_cleanly env) eqn:Hclean.
    + destruct (stream g) as [h|] eqn:Hs.
      * rewrite (stop_recording_clean g h env Hrec Hlock Hs Hclean).
        match goal with
        | |- exists g', encode_and_dispatch ?fs ?g0 = _ /\ _ =>
            destruct (encode_and_dispatch_returns fs g0)
              as (g' & Hrun & H1 & H2 & H3 & _ & H5 & H6)
        end.
        exists g'. repeat split; try assumption;
          [intros _; exact H3 | discriminate].
      * destruct (stop_recording_close_fails g env Hrec Hlock (or_intror Hs))
          as (e & calls & Hrun & _).
        eexists. split; [exact Hrun |]. repeat split; discriminate || reflexivity.
    + destruct (stop_recording_close_fails g env Hrec Hlock (or_introl Hclean))
        as (e & calls & Hrun & _).
      eexists. split; [exact Hrun |]. repeat split; discriminate || reflexivity.
  - rewrite (stop_recording_idle g env Hrec Hlock).
    eexists. split; [reflexivity |]. repeat split; discriminate || reflexivity.
Qed.

Ltac agrees := unfold stream_agrees; cbn; intuition congruence.

(** Every step of every thread keeps [is_recording] and [stream] in
    agreement. *)
Lemma perform_agrees (a : action) (g : globals) :
  stream_agrees g -> stream_agrees (globals_of (perform a g)).
Proof.
  intros Hg.
  destruct (record_lock g) eqn:Hlock.
  - (* the lock is held for good: the steps that take it block *)
    destruct a as [opened now | env | env | confirmed env | buf env | e1 e2].
    + open_globals g. exact Hg.
    + cbn [perform]. now rewrite (stop_recording_held g env Hlock).
    + open_globals g. destruct stop; exact Hg.
    + open_globals g.
      destruct recording; [destruct confirmed |]; exact Hg.
    + cbn [perform].
      destruct (process_audio_trace buf env g) as (evs & -> & _). exact Hg.
    + open_globals g. exact Hg.
  - destruct a as [opened now | env | env | confirmed env | buf env | e1 e2].
    + open_globals g. destruct recording; [exact Hg |].
      destruct opened as [e | h]; revert Hg; agrees.
    + cbn [perform].
      destruct (stop_recording_returns g env Hlock)
        as (g' & -> & Hrec' & _ & _ & _ & Hwas & Hwasnt).
      destruct Hg as (_ & Hidle).
      destruct (is_recording g) eqn:Hrec; unfold stream_agrees;
        cbn [globals_of]; rewrite Hrec'; split; try discriminate; intros _.
      * now apply Hwas.
      * rewrite Hwasnt by reflexivity. now apply Hidle.
    + cbn [perform]. cbv beta iota delta [bind Monad_prog prog_bind read].
      destruct (exit_event g); [exact Hg |].
      destruct (is_recording g) eqn:Hrec.
      * destruct (stream g) as [h|] eqn:Hs.
        -- destruct env as [[e | data] failure].
           ++ rewrite (capture_read_fails g h e (mkIterationEnv (inl e) failure)
                         Hrec Hs Hlock eq_refl).
              agrees.
           ++ rewrite (capture_appends g h data
                         (mkIterationEnv (inr data) failure)
                         Hrec Hs Hlock eq_refl).
              agrees.
        -- rewrite (capture_idle g env (or_intror Hs) Hlock).
           revert Hg. unfold stream_agrees. cbn. now rewrite Hrec, Hs.
      * rewrite (capture_idle g env (or_introl Hrec) Hlock).
        revert Hg. unfold stream_agrees. cbn. now rewrite Hrec.
    + cbn [perform]. unfold on_closing.
      cbv beta iota delta [bind Monad_prog prog_bind read].
      destruct (is_recording g) eqn:Hrec.
      * destruct confirmed; [| exact Hg].
        destruct (stop_recording_returns g env Hlock)
          as (g' & -> & Hrec' & _ & _ & _ & Hwas & _).
        unfold stream_agrees. cbn. rewrite Hrec', (Hwas Hrec).
        split; [discriminate | reflexivity].
      * revert Hg. unfold stream_agrees. cbn. now rewrite Hrec.
    + cbn [perform].
      destruct (process_audio_trace buf env g) as (evs & -> & _). exact Hg.
    + open_globals g. destruct s as [h|]; [| exact Hg].
      destruct e1, e2; exact Hg.
Qed.

Lemma run_agrees (acts : list action) :
  forall g : globals, stream_agrees g -> stream_agrees (run acts g).
Proof.
  induction acts as [| a acts IH]; intros g Hg; [exact Hg |].
  cbn [run]. apply IH. now apply perform_agrees.
Qed.

(** Whatever the globals, an iteration reads at most once, and then from
    the stream that [stream] holds, while recording. *)
Lemma capture_reads_the_stream (g : globals) (env : iteration_env) :
  reads_on (trace (globals_of (record_audio_iteration env g)))
  = reads_on (trace g) \/
  exists h,
    is_recording g = true /\ stream g = Some h /\
    reads_on (trace (globals_of (record_audio_iteration env g)))
    = h :: reads_on (trace g).
Proof.
  destruct (record_lock g) eqn:Hlock.
  { left. now rewrite (capture_held g env Hlock). }
  destruct (is_recording g) eqn:Hrec.
  - destruct (stream g) as [h|] eqn:Hs.
    + right. exists h. repeat split.
      destruct env as [[e | data] failure].
      * now rewrite (capture_read_fails g h e (mkIterationEnv (inl e) failure)
                       Hrec Hs Hlock eq_refl).
      * now rewrite (capture_appends g h data
                       (mkIterationEnv (inr data) failure)
                       Hrec Hs Hlock eq_refl).
    + left. now rewrite (capture_idle g env (or_intror Hs) Hlock).
  - left. now rewrite (capture_idle g env (or_introl Hrec) Hlock).
Qed.

Lemma initial_agrees : stream_agrees initial.
Proof. split; [discriminate | reflexivity]. Qed.

(** C10. After any sequence of steps of the threads from the initial
    globals (each step ends with the lock released, or blocked on it),
    [stream] is not [None] if [is_recording] is set and is [None] if it is
    not. Hence while recording the guard of line 201 always finds a
    stream, and a read of the capture loop is always a read from the
    stream that [stream] holds at that moment. *)
Theorem stream_agrees_with_is_recording (acts : list action) :
  stream_agrees (run acts initial) /\
  (is_recording (run acts initial) = true ->
   exists h, stream (run acts initial) = Some h) /\
  forall env : iteration_env,
    reads_on
      (trace (globals_of (record_audio_iteration env (run acts initial))))
    = reads_on (trace (run acts initial)) \/
    exists h,
      is_recording (run acts initial) = true /\
      stream (run acts initial) = Some h /\
      reads_on
        (trace (globals_of (record_audio_iteration env (run acts initial))))
      = h :: reads_on (trace (run acts initial)).
Proof.
  pose proof (run_agrees acts initial initial_agrees) as Hagree.
  split; [exact Hagree |]. split.
  - intros Hrec. destruct Hagree as (Hsome & _).
    destruct (stream (run acts initial)) as [h|].
    + now exists h.
    + now elim (Hsome Hrec).
  - intros env. apply capture_reads_the_stream.
Qed.

(** ** A whole session *)

Lemma stop_recording_locked_clean (g : globals) (h : Stream) (env : stop_env) :
  is_recording g = true -> record_lock g = false -> stream g = Some h ->
  closes_cleanly env = true ->
  stop_recording_locked env g
  = Returned true
      (mkGlobals false (frames g) None (recording_start_time g)
         (exit_event g) false
         (status_label_config
            (Recorded_seconds (recording_end_time env - recording_start_time g))
          :: print
               (Recording_duration
                  (recording_end_time env - recording_start_time g))
          :: stream_close h :: stream_stop_stream h
          :: print (Text "Recording stopped.") :: trace g)).
Proof.
  intros Hrec Hlock Hs Hclean. open_globals g.
  destruct env as [[e1|] [e2|] t]; try discriminate Hclean.
  reflexivity.
Qed.

(** C5. Start from idle, let the capture loop read the chunks [chunks],
    stop with the device closing cleanly. Whatever [frames] held before,
    the buffer that [stop_recording] encodes is [chunks], as many chunks as
    were read and in the order of the reads; and the next
    [start_recording] empties [frames] before anything is appended,
    whether the device opens or not. *)
Theorem session_buffer_holds_the_chunks_read
    (g : globals) (h : Stream) (chunks : list bytes) (now : Q)
    (env stop : stop_env) :
  is_recording g = false -> record_lock g = false -> exit_event g = false ->
  closes_cleanly stop = true ->
  exists g1 g2,
    (start_recording (inr h) now ;;
     record_audio (delivering chunks env) ;;
     stop_recording_locked stop) g = Returned true g1 /\
    frames g1 = chunks /\
    length (frames g1) = length chunks /\
    (start_recording (inr h) now ;;
     record_audio (delivering chunks env) ;;
     stop_recording stop) g = Returned tt g2 /\
    encode_and_dispatch chunks g1 = Returned tt g2 /\
    forall (opened : exn + Stream) (later : Q),
    exists g3,
      start_recording opened later g2 = Returned tt g3 /\ frames g3 = [].
Proof.
  intros Hrec Hlock Hexit Hclean.
  cbv beta iota delta [bind Monad_prog prog_bind].
  rewrite (start_recording_opens g h now Hrec Hlock).
  destruct (record_audio_delivers chunks env
              (mkGlobals true [] (Some h) now (exit_event g) false
                 (status_label_config (Text "Recording...")
                  :: p_open FORMAT CHANNELS RATE CHUNK
                  :: print (Text "Recording started...") :: trace g))
              h eq_refl eq_refl eq_refl Hexit) as (tr & -> & _).
  cbn [frames app recording_start_time].
  rewrite (stop_recording_locked_clean
             (mkGlobals true chunks (Some h) now false false tr) h stop
             eq_refl eq_refl eq_refl Hclean).
  rewrite (stop_recording_clean
             (mkGlobals true chunks (Some h) now false false tr) h stop
             eq_refl eq_refl eq_refl Hclean).
  cbn [frames recording_start_time exit_event trace].
  match goal with
  | |- exists g1 g2, Returned true ?g0 = _ /\ _ =>
      destruct (encode_and_dispatch_returns chunks g0)
        as (g2 & Hrun & Hr & _ & _ & _ & _ & Hl);
      exists g0, g2
  end.
  repeat split; try assumption.
  intros opened later.
  cbn [is_recording record_lock] in Hr, Hl.
  destruct opened as [e | h'].
  - rewrite (start_recording_refused g2 e later Hr Hl).
    eexists. split; reflexivity.
  - rewrite (start_recording_opens g2 h' later Hr Hl).
    eexists. split; reflexivity.
Qed.

Lemma session_buffer_holds_the_chunks_read_witness :
  exists g1 g2,
    (start_recording (inr (mkStream 0)) 1 ;;
     record_audio
       (delivering [[x01; x00]; [x02; x00]; [x03; x00]] (mkStopEnv None None 2)) ;;
     stop_recording_locked (mkStopEnv None None 2))
      (mkGlobals false [[xff; xff]] None 0 false false [])
    = Returned true g1 /\
    frames g1 = [[x01; x00]; [x02; x00]; [x03; x00]] /\
    encode_and_dispatch [[x01; x00]; [x02; x00]; [x03; x00]] g1
    = Returned tt g2.
Proof.
  destruct (session_buffer_holds_the_chunks_read
              (mkGlobals false [[xff; xff]] None 0 false false [])
              (mkStream 0) [[x01; x00]; [x02; x00]; [x03; x00]] 1
              (mkStopEnv None None 2) (mkStopEnv None None 2)
              eq_refl eq_refl eq_refl eq_refl)
    as (g1 & g2 & Hlocked & Hframes & _ & _ & Henc & _).
  exists g1, g2. repeat split; assumption.
Defined.

(** ** Closing the window *)

(** C3, as the claim states it, fails: closing the window on a session in
    progress and confirming hands the session to a [process_audio] thread. *)
Lemma confirmed_shutdown_dispatches_the_session :
  is_recording session_in_progress = true /\
  dispatched (trace session_in_progress) = [] /\
  dispatched
    (trace (globals_of
              (on_closing true (mkStopEnv None None 2) session_in_progress)))
  = [container [x01; x00]].
Proof. repeat split. Qed.

(** C3, amended. Closing the window while recording: if the user declines,
    [on_closing] returns at once and nothing has changed. If the user
    confirms, [on_closing] is [stop_recording] followed by
    [exit_event.set()] and [root.destroy()]; with the lock free it returns
    idle, with no stream and the exit event set, and when the device closes
    cleanly and the payload fits a WAV file the session is handed to a
    [process_audio] thread, as by any other [stop_recording]. *)
Theorem closing_while_recording (g : globals) (env : stop_env) :
  is_recording g = true ->
  on_closing false env g = Returned tt g /\
  on_closing true env g
  = (stop_recording env ;; exit_event_set ;; emit root_destroy) g /\
  (record_lock g = false ->
   exists g',
     on_closing true env g = Returned tt g' /\
     is_recording g' = false /\
     stream g' = None /\
     exit_event g' = true /\
     forall h : Stream,
       stream g = Some h -> closes_cleanly env = true ->
       (N.of_nat (length (join (frames g))) <= max_payload)%N ->
       dispatched (trace g')
       = container (join (frames g)) :: dispatched (trace g)).
Proof.
  intros Hrec.
  assert (Hconfirmed :
            on_closing true env g
            = (stop_recording env ;; exit_event_set ;; emit root_destroy) g).
  { unfold on_closing. cbv beta iota delta [bind Monad_prog prog_bind read].
    now rewrite Hrec. }
  split; [| split; [exact Hconfirmed |]].
  - unfold on_closing. cbv beta iota delta [bind Monad_prog prog_bind read].
    now rewrite Hrec.
  - intros Hlock. rewrite Hconfirmed.
    cbv beta iota delta [bind Monad_prog prog_bind].
    destruct (stream g) as [h|] eqn:Hs.
    + destruct (closes_cleanly env) eqn:Hclean.
      * rewrite (stop_recording_clean g h env Hrec Hlock Hs Hclean).
        destruct (N.leb_spec (N.of_nat (length (join (frames g)))) max_payload)
          as [Hfit | Hbig].
        -- rewrite (encode_and_dispatch_fits _ _ Hfit).
           eexists. split; [reflexivity |]. repeat split.
        -- rewrite (encode_and_dispatch_overflow _ _ Hbig).
           eexists. split; [reflexivity |]. repeat split.
           intros h' _ _ Hfit. lia.
      * destruct (stop_recording_close_fails g env Hrec Hlock
                    (or_introl Hclean)) as (e & calls & -> & _).
        eexists. split; [reflexivity |]. repeat split.
        intros h' _ Hno. discriminate Hno.
    + destruct (stop_recording_close_fails g env Hrec Hlock (or_intror Hs))
        as (e & calls & -> & _).
      eexists. split; [reflexivity |]. repeat split.
      intros h' Hno. discriminate Hno.
Qed.

Lemma closing_while_recording_witness :
  on_closing false (mkStopEnv None None 2) session_in_progress
  = Returned tt session_in_progress /\
  exists g',
    on_closing true (mkStopEnv None None 2) session_in_progress
    = Returned tt g' /\
    exit_event g' = true /\
    dispatched (trace g') = [container [x01; x00]].
Proof.
  destruct (closing_while_recording session_in_progress
              (mkStopEnv None None 2) eq_refl) as (Hdeclined & _ & Hconfirmed).
  split; [exact Hdeclined |].
  destruct (Hconfirmed eq_refl) as (g' & Hrun & _ & _ & Hexit & Hsent).
  exists g'. split; [exact Hrun |]. split; [exact Hexit |].
  apply (Hsent (mkStream 0)); [reflexivity | reflexivity |].
  vm_compute. discriminate.
Defined.

(** ** An empty session *)

Lemma length_empty_container : length (container []) = 44%nat.
Proof. reflexivity. Qed.

(** C2. [stop_recording] on a session with no chunk in [frames] writes a
    WAV file all the same: 44 bytes of header and no frame. The file
    passes the check of lines 180-182, goes to a [process_audio] thread,
    and since it is not the empty byte string the test of line 75 lets it
    through: the run, however it ends, has sent it to the transcription
    service. *)
Theorem empty_session_is_sent_for_transcription
    (g : globals) (h : Stream) (env : stop_env) :
  is_recording g = true -> frames g = [] -> stream g = Some h ->
  record_lock g = false -> closes_cleanly env = true ->
  exists g',
    stop_recording env g = Returned tt g' /\
    dispatched (trace g') = container [] :: dispatched (trace g) /\
    length (container []) = 44%nat /\
    wave_read (container [])
    = inr (mkWave_read 1 2 16000 0 []) /\
    forall (worker : worker_env) (g0 : globals),
    exists g1,
      (process_audio (container []) worker g0 = Returned tt g1 \/
       exists e, process_audio (container []) worker g0 = Raised e g1) /\
      transcription_calls (trace g1)
      = container [] :: transcription_calls (trace g0).
Proof.
  intros Hrec Hframes Hs Hlock Hclean.
  rewrite (stop_recording_clean g h env Hrec Hlock Hs Hclean), Hframes.
  rewrite encode_and_dispatch_fits by (cbn; discriminate).
  eexists. split; [reflexivity |]. split; [reflexivity |].
  split; [reflexivity |]. split; [reflexivity |].
  intros worker g0.
  destruct (process_audio_trace (container []) worker g0)
    as (evs & _ & _ & _ & Hcalls & _ & _ & Hreturns & Hraises).
  exists (logging evs g0). split.
  - destruct (handler_raises (transcribe_answer worker)).
    + right. now apply Hraises.
    + left. apply Hreturns. now right.
  - cbn [logging trace]. now rewrite transcription_calls_app, Hcalls.
Qed.

(** The shortest session: the two buttons one after the other, before the
    capture thread has read anything. *)
Lemma empty_session_is_sent_for_transcription_witness :
  exists g',
    stop_recording (mkStopEnv None None 2)
      (mkGlobals true [] (Some (mkStream 0)) 1 false false [])
    = Returned tt g' /\
    dispatched (trace g') = [container []].
Proof.
  destruct (empty_session_is_sent_for_transcription
              (mkGlobals true [] (Some (mkStream 0)) 1 false false [])
              (mkStream 0) (mkStopEnv None None 2)
              eq_refl eq_refl eq_refl eq_refl eq_refl)
    as (g' & Hrun & Hd & _).
  exists g'. split; assumption.
Defined.

End ProgramFacts.

(** ** The container, written and read back *)

Section RoundTrip.

Local Open Scope N_scope.

Lemma length_join_chunks (fs : list bytes) (n : nat) :
  Forall (fun chunk => length chunk = n) fs ->
  length (join fs) = (n * length fs)%nat.
Proof.
  unfold join. induction 1 as [| chunk fs Hchunk _ IH]; cbn [List.concat length].
  - lia.
  - rewrite length_app, IH, Hchunk. lia.
Qed.

(** C4. The file [stop_recording] writes for the chunks [fs] reads back,
    with [wave.open(.., "rb")], as one channel, 16000 frames a second and
    two bytes (16 bits) a sample, with the chunks as its data, in the order
    they were appended, and half as many frames as bytes. When every chunk
    is what [stream.read(CHUNK)] returns, 2048 bytes, that makes [CHUNK]
    frames for each chunk and [readframes] gives back exactly the chunks.
    The file is written whenever the payload fits the 32-bit length fields
    of the header. *)
Theorem wav_round_trip (fs : list bytes) :
  (N.of_nat (length (join fs)) <= max_payload ->
   exists file, encode fs = inr file) /\
  forall file : bytes,
    encode fs = inr file ->
    exists r : Wave_read,
      wave_read file = inr r /\
      getnchannels r = 1 /\
      getframerate r = 16000 /\
      getsampwidth r * 8 = 16 /\
      r_data r = join fs /\
      getnframes r = N.of_nat (length (join fs)) / 2 /\
      (Forall (fun chunk => N.of_nat (length chunk) = chunk_bytes) fs ->
       getnframes r = CHUNK * N.of_nat (length fs) /\
       readframes r (getnframes r) = join fs).
Proof.
  rewrite encode_closed_form.
  destruct (N.leb_spec (N.of_nat (length (join fs))) max_payload)
    as [Hfit | Hbig].
  - split; [intros _; eexists; reflexivity |].
    intros file [= <-].
    rewrite (wave_read_container _ Hfit).
    eexists. split; [reflexivity |].
    cbn [getnchannels getframerate getsampwidth getnframes readframes
         r_nchannels r_framerate r_sampwidth r_nframes r_data].
    do 5 (split; [reflexivity |]).
    intros Hchunks.
    assert (Hlen : N.of_nat (length (join fs)) = 1024 * N.of_nat (length fs) * 2).
    { rewrite (length_join_chunks fs 2048).
      - lia.
      - revert Hchunks. apply Forall_impl. intros chunk Hchunk.
        change chunk_bytes with 2048 in Hchunk. lia. }
    assert (Hframes : N.of_nat (length (join fs)) / 2
                      = CHUNK * N.of_nat (length fs)).
    { rewrite Hlen. now rewrite N.div_mul. }
    split; [exact Hframes |].
    rewrite Hframes. apply firstn_all2.
    change CHUNK with 1024. cbn [r_nchannels r_sampwidth]. lia.
  - split; [lia | discriminate].
Qed.

Lemma wav_round_trip_witness :
  exists file r,
    encode [[x01; x00; x02; x00]; [x03; x00]] = inr file /\
    wave_read file = inr r /\
    r_data r = [x01; x00; x02; x00; x03; x00] /\
    getnframes r = 3.
Proof.
  destruct (wav_round_trip [[x01; x00; x02; x00]; [x03; x00]]) as (Hwrites & Hreads).
  destruct Hwrites as (file & Hfile); [vm_compute; discriminate |].
  destruct (Hreads file Hfile) as (r & Hr & _ & _ & _ & Hdata & Hn & _).
  exists file, r. repeat split; assumption.
Defined.

End RoundTrip.

(** ** The pause of the capture loop *)

(** C9. The pause of line 208 is shorter than the time one chunk lasts:
    the double [0.01], which is [1/100] to within [2^-60], is less than
    [CHUNK / RATE = 1024 / 16000 = 0.064] seconds. *)
Theorem sleep_shorter_than_a_chunk :
  (SLEEP < chunk_period)%Q /\
  (chunk_period == 64 # 1000)%Q /\
  (1 # 100 <= SLEEP)%Q /\
  (SLEEP - (1 # 100) < 1 # 1152921504606846976)%Q.
Proof. repeat split; vm_compute; congruence. Qed.

(** * Further facts *)

(** ** The entry points, case by case *)

Section SessionFacts.

Local Open Scope Q_scope.

Ltac fields g :=
  destruct g as [recording fs s start stop lock tr]; cbn [is_recording frames
    stream recording_start_time exit_event record_lock trace] in *; subst.

Ltac binds := cbv beta iota delta [bind Monad_prog prog_bind read].

(** [stop_recording] called while idle answers with the "no recording"
    warning and does nothing else: no variable changes, the device is not
    called, nothing is encoded. *)
Theorem stop_while_idle_changes_nothing (g : globals) (env : stop_env) :
  is_recording g = false -> record_lock g = false ->
  exists g',
    stop_recording env g = Returned tt g' /\
    same_variables g g' /\
    trace g' = showwarning (Text "No recording is in progress.")
               :: print (Text "Not currently recording. Ignoring stop request.")
               :: trace g.
Proof.
  intros Hrec Hlock. rewrite (stop_recording_idle g env Hrec Hlock).
  eexists. split; [reflexivity |]. split; [| reflexivity].
  unfold same_variables. cbn. rewrite Hrec, Hlock. repeat split.
Qed.

Lemma stop_while_idle_changes_nothing_witness :
  exists g',
    stop_recording (mkStopEnv None None 3) initial = Returned tt g' /\
    same_variables initial g'.
Proof.
  destruct (stop_while_idle_changes_nothing initial (mkStopEnv None None 3)
              eq_refl eq_refl) as (g' & Hrun & Hsame & _).
  exists g'. split; assumption.
Defined.

(** [start_recording] from idle when [p.open] raises: the error is printed
    and shown, the program is idle again, [stream] and
    [recording_start_time] are as before, but [frames] has been emptied:
    what the last session left in the buffer is gone. *)
Theorem start_refused_stays_idle
    (g : globals) (e : exn) (now : Q) :
  is_recording g = false -> record_lock g = false ->
  exists g',
    start_recording (inl e) now g = Returned tt g' /\
    is_recording g' = false /\
    record_lock g' = false /\
    frames g' = [] /\
    stream g' = stream g /\
    recording_start_time g' = recording_start_time g /\
    exit_event g' = exit_event g /\
    trace g' = showerror (Failed_to_start_recording e)
               :: print (Error_starting_recording e)
               :: p_open FORMAT CHANNELS RATE CHUNK
               :: print (Text "Recording started...") :: trace g.
Proof.
  intros Hrec Hlock. rewrite (start_recording_refused g e now Hrec Hlock).
  eexists. split; [reflexivity |]. repeat split.
Qed.

Lemma start_refused_stays_idle_witness :
  exists g',
    start_recording (inl (OSError (-9996))) 5
      (mkGlobals false [[x01; x00]] None 1 false false [])
    = Returned tt g' /\
    is_recording g' = false /\ frames g' = [].
Proof.
  destruct (start_refused_stays_idle
              (mkGlobals false [[x01; x00]] None 1 false false [])
              (OSError (-9996)) 5 eq_refl eq_refl)
    as (g' & Hrun & Hidle & _ & Hframes & _).
  exists g'. repeat split; assumption.
Defined.

(** A whole session, from the first button to the thread: started at
    [now], stopped at [recording_end_time stop] with the device closing
    cleanly and a payload that fits a WAV file. The program is idle again
    with no stream, the label shows the difference of the two times, the
    stream was stopped and closed, and the last thing done is to start one
    [process_audio] thread on the WAV file of the chunks read. *)
Theorem session_ends_with_one_dispatch
    (g : globals) (h : Stream) (chunks : list bytes) (now : Q)
    (env stop : stop_env) :
  is_recording g = false -> record_lock g = false -> exit_event g = false ->
  closes_cleanly stop = true ->
  (N.of_nat (length (join chunks)) <= max_payload)%N ->
  exists g' earlier,
    (start_recording (inr h) now ;;
     record_audio (delivering chunks env) ;;
     stop_recording stop) g = Returned tt g' /\
    is_recording g' = false /\
    stream g' = None /\
    record_lock g' = false /\
    recording_start_time g' = now /\
    trace g' = thread_start (container (join chunks))
               :: status_label_config
                    (Recorded_seconds (recording_end_time stop - now))
               :: print (Recording_duration (recording_end_time stop - now))
               :: stream_close h :: stream_stop_stream h
               :: print (Text "Recording stopped.") :: earlier /\
    dispatched (trace g') = container (join chunks) :: dispatched (trace g).
Proof.
  intros Hrec Hlock Hexit Hclean Hfit. binds.
  rewrite (start_recording_opens g h now Hrec Hlock).
  destruct (record_audio_delivers chunks env
              (mkGlobals true [] (Some h) now (exit_event g) false
                 (status_label_config (Text "Recording...")
                  :: p_open FORMAT CHANNELS RATE CHUNK
                  :: print (Text "Recording started...") :: trace g))
              h eq_refl eq_refl eq_refl Hexit) as (tr & -> & Htr).
  cbn [frames app recording_start_time].
  rewrite (stop_recording_clean
             (mkGlobals true chunks (Some h) now false false tr) h stop
             eq_refl eq_refl eq_refl Hclean).
  cbn [frames recording_start_time exit_event trace].
  rewrite (encode_and_dispatch_fits chunks _ Hfit).
  eexists _, tr. split; [reflexivity |]. do 5 (split; [reflexivity |]).
  cbn [trace dispatched]. rewrite Htr. reflexivity.
Qed.

Lemma session_ends_with_one_dispatch_witness :
  exists g',
    (start_recording (inr (mkStream 0)) 1 ;;
     record_audio
       (delivering [[x01; x00]; [x02; x00]] (mkStopEnv None None 0)) ;;
     stop_recording (mkStopEnv None None 4)) initial = Returned tt g' /\
    dispatched (trace g') = [container [x01; x00; x02; x00]].
Proof.
  destruct (session_ends_with_one_dispatch initial (mkStream 0)
              [[x01; x00]; [x02; x00]] 1 (mkStopEnv None None 0)
              (mkStopEnv None None 4) eq_refl eq_refl eq_refl eq_refl)
    as (g' & earlier & Hrun & _ & _ & _ & _ & _ & Hsent).
  - vm_compute. discriminate.
  - exists g'. split; assumption.
Defined.

(** [stop_recording] then [start_recording], with the lock free and the
    device opening, always leaves a fresh session: recording, an empty
    buffer, the new stream, the new start time. It does so whether the
    program was recording or idle, and whether closing the old stream
    raised or not. *)
Theorem stop_then_start_is_a_fresh_session
    (g : globals) (env : stop_env) (h : Stream) (now : Q) :
  record_lock g = false ->
  exists g',
    (stop_recording env ;; start_recording (inr h) now) g = Returned tt g' /\
    is_recording g' = true /\
    frames g' = [] /\
    stream g' = Some h /\
    recording_start_time g' = now /\
    record_lock g' = false.
Proof.
  intros Hlock. binds.
  destruct (stop_recording_returns g env Hlock)
    as (g1 & -> & Hidle & Hfree & _).
  rewrite (start_recording_opens g1 h now Hidle Hfree).
  eexists. split; [reflexivity |]. repeat split.
Qed.

Lemma stop_then_start_is_a_fresh_session_witness :
  exists g',
    (stop_recording (mkStopEnv (Some (OSError (-9988))) None 2) ;;
     start_recording (inr (mkStream 1)) 3) session_in_progress
    = Returned tt g' /\
    frames g' = [] /\ stream g' = Some (mkStream 1).
Proof.
  destruct (stop_then_start_is_a_fresh_session session_in_progress
              (mkStopEnv (Some (OSError (-9988))) None 2) (mkStream 1) 3
              eq_refl) as (g' & Hrun & _ & Hframes & Hs & _).
  exists g'. repeat split; assumption.
Defined.

(** ** The lock and the exceptions *)

(** With the lock free, every step of a thread that returns, and every
    step that raises, has released the lock. An exception leaves one step
    only: a [process_audio] run whose transcription call raised with a
    status and whose handler cannot read a message off the body (line
    114). The one step that neither returns nor raises is an iteration of
    the capture loop whose read raises while recording. *)
Theorem steps_return_with_the_lock_released (a : action) (g : globals) :
  record_lock g = false ->
  match perform a g with
  | Returned _ g' => record_lock g' = false
  | Raised _ g' =>
      record_lock g' = false /\
      exists buf env,
        a = Worker buf env /\ buf <> [] /\
        handler_raises (transcribe_answer env) = true
  | Blocked _ =>
      exists env e h,
        a = Capture env /\ read_answer env = inl e /\
        is_recording g = true /\ stream g = Some h /\ exit_event g = false
  end.
Proof.
  intros Hlock.
  destruct a as [opened now | env | env | confirmed env | buf env | e1 e2];
    cbn [perform].
  - fields g. destruct recording; [lazy; reflexivity |].
    destruct opened; lazy; reflexivity.
  - destruct (stop_recording_returns g env Hlock) as (g' & -> & _ & Hfree & _).
    exact Hfree.
  - binds. destruct (exit_event g) eqn:Hexit; [exact Hlock |].
    destruct (is_recording g) eqn:Hrec.
    + destruct (stream g) as [h|] eqn:Hs.
      * destruct env as [[e | data] failure].
        -- rewrite (capture_read_fails g h e (mkIterationEnv (inl e) failure)
                      Hrec Hs Hlock eq_refl).
           exists (mkIterationEnv (inl e) failure), e, h. repeat split.
        -- now rewrite (capture_appends g h data
                          (mkIterationEnv (inr data) failure)
                          Hrec Hs Hlock eq_refl).
      * rewrite (capture_idle g env (or_intror Hs) Hlock). exact Hlock.
    + rewrite (capture_idle g env (or_introl Hrec) Hlock). exact Hlock.
  - unfold on_closing. binds.
    destruct (is_recording g); [destruct confirmed |]; try exact Hlock.
    destruct (stop_recording_returns g env Hlock) as (g' & -> & _ & Hfree & _).
    exact Hfree.
  - destruct (process_audio_trace buf env g)
      as (evs & _ & _ & _ & _ & _ & _ & Hreturns & Hraises).
    destruct buf as [| b buf].
    + rewrite (Hreturns (or_introl eq_refl)). exact Hlock.
    + destruct (handler_raises (transcribe_answer env)) eqn:Hhandler.
      * destruct (Hraises eq_refl eq_refl) as (e & ->).
        split; [exact Hlock |]. exists (b :: buf), env.
        split; [reflexivity |]. split; [discriminate | exact Hhandler].
      * rewrite (Hreturns (or_intror eq_refl)). exact Hlock.
  - fields g. destruct s as [h|]; [| lazy; reflexivity].
    destruct e1, e2; lazy; reflexivity.
Qed.

Lemma steps_return_with_the_lock_released_witness :
  exists g',
    perform (Stop (mkStopEnv None (Some (OSError (-9988))) 2))
      session_in_progress = Returned tt g' /\
    record_lock g' = false.
Proof.
  pose proof (steps_return_with_the_lock_released
                (Stop (mkStopEnv None (Some (OSError (-9988))) 2))
                session_in_progress eq_refl) as H.
  destruct (perform (Stop (mkStopEnv None (Some (OSError (-9988))) 2))
              session_in_progress) as [[] g' | e g' | g'].
  - exists g'. split; [reflexivity | exact H].
  - destruct H as (_ & buf & env & Habs & _). discriminate Habs.
  - destruct H as (env & e & h & Habs & _). discriminate Habs.
Defined.

(** ** The capture loop *)

Lemma logging_logging (a b : list event) (g : globals) :
  logging a (logging b g) = logging (a ++ b) g.
Proof. unfold logging. cbn. now rewrite app_assoc. Qed.

(** While the program is idle the loop only sleeps: however many
    iterations it makes, it reads nothing and changes no variable. *)
Theorem idle_loop_only_sleeps (envs : list iteration_env) :
  forall g : globals,
    is_recording g = false -> record_lock g = false -> exit_event g = false ->
    record_audio envs g
    = Returned tt (logging (repeat (sleep SLEEP) (length envs)) g).
Proof.
  induction envs as [| env envs IH]; intros g Hrec Hlock Hexit.
  - fields g. reflexivity.
  - cbn [record_audio length repeat]. binds. rewrite Hexit.
    rewrite (capture_idle g env (or_introl Hrec) Hlock).
    rewrite (IH (logging [sleep SLEEP] g) Hrec Hlock Hexit).
    rewrite logging_logging, <- repeat_cons. reflexivity.
Qed.

Lemma idle_loop_only_sleeps_witness :
  record_audio
    [mkIterationEnv (inr [x01; x00]) (mkStopEnv None None 0);
     mkIterationEnv (inl (OSError 1)) (mkStopEnv None None 0)] initial
  = Returned tt (logging [sleep SLEEP; sleep SLEEP] initial).
Proof.
  exact (idle_loop_only_sleeps
           [mkIterationEnv (inr [x01; x00]) (mkStopEnv None None 0);
            mkIterationEnv (inl (OSError 1)) (mkStopEnv None None 0)]
           initial eq_refl eq_refl eq_refl).
Defined.

Lemma record_audio_after_exit (envs : list iteration_env) (g : globals) :
  exit_event g = true -> record_audio envs g = Returned tt g.
Proof.
  intros Hexit. destruct envs as [| env envs]; [reflexivity |].
  cbn [record_audio]. binds. now rewrite Hexit.
Qed.

(** Closing the window while idle, or while recording and confirming,
    with the lock free: [on_closing] returns with the program idle, the
    exit event set and the window destroyed, and from then on the capture
    loop does nothing at all: no read, no sleep, whatever the device would
    have answered. *)
Theorem capture_loop_ends_after_closing
    (g : globals) (confirmed : bool) (env : stop_env) :
  record_lock g = false ->
  is_recording g = false \/ confirmed = true ->
  exists g' earlier,
    on_closing confirmed env g = Returned tt g' /\
    is_recording g' = false /\
    exit_event g' = true /\
    trace g' = root_destroy :: earlier /\
    forall envs : list iteration_env, record_audio envs g' = Returned tt g'.
Proof.
  intros Hlock Hcase. unfold on_closing. binds.
  destruct (is_recording g) eqn:Hrec.
  - destruct Hcase as [Hno | ->]; [discriminate Hno |].
    destruct (stop_recording_returns g env Hlock) as (g' & -> & Hidle & _).
    eexists _, _. split; [reflexivity |]. split; [exact Hidle |].
    split; [reflexivity |]. split; [reflexivity |].
    intros envs. now apply record_audio_after_exit.
  - eexists _, _. split; [reflexivity |]. split; [exact Hrec |].
    split; [reflexivity |]. split; [reflexivity |].
    intros envs. now apply record_audio_after_exit.
Qed.

Lemma capture_loop_ends_after_closing_witness :
  exists g',
    on_closing true (mkStopEnv None None 2) session_in_progress
    = Returned tt g' /\
    record_audio [mkIterationEnv (inr [x01; x00]) (mkStopEnv None None 0)] g'
    = Returned tt g'.
Proof.
  destruct (capture_loop_ends_after_closing session_in_progress true
              (mkStopEnv None None 2) eq_refl (or_intror eq_refl))
    as (g' & earlier & Hrun & _ & _ & _ & Hloop).
  exists g'. split; [exact Hrun | apply Hloop].
Defined.

(** ** Releasing the device *)

Lemma closed_streams_app (a b : list event) :
  closed_streams (a ++ b) = closed_streams a ++ closed_streams b.
Proof.
  induction a as [| ev a IH]; [reflexivity |].
  destruct ev; cbn [app closed_streams]; rewrite ?IH; reflexivity.
Qed.

(** The end of [main], with the lock free: it returns whatever the device
    does, changes no variable, and ends by terminating PyAudio. A stream
    still in [stream] is stopped, and closed unless stopping it raised; the
    exception is printed and goes no further. *)
Theorem end_of_main_releases_the_device
    (g : globals) (stop_raises close_raises : option exn) :
  record_lock g = false ->
  exists g' earlier,
    main_finally stop_raises close_raises g = Returned tt g' /\
    same_variables g g' /\
    trace g' = print (Text "PyAudio terminated.") :: p_terminate :: earlier /\
    closed_streams (trace g')
    = match stream g, stop_raises with
      | Some h, None => h :: closed_streams (trace g)
      | _, _ => closed_streams (trace g)
      end.
Proof.
  intros Hlock. fields g.
  destruct s as [h|]; [destruct stop_raises, close_raises |];
    eexists _, _; (split; [lazy; reflexivity |]); repeat split.
Qed.

Lemma end_of_main_releases_the_device_witness :
  exists g',
    main_finally None (Some (OSError (-9988))) session_in_progress
    = Returned tt g' /\
    closed_streams (trace g') = [mkStream 0].
Proof.
  destruct (end_of_main_releases_the_device session_in_progress
              None (Some (OSError (-9988))) eq_refl)
    as (g' & earlier & Hrun & _ & _ & Hclosed).
  exists g'. split; assumption.
Defined.

(** From a recording state to the end of the program: [stop_recording],
    then the end of [main]. The stream is closed exactly once, by
    [stop_recording], unless [stream.stop_stream()] raised there: then
    [stream.close()] is never called, because [stream] is [None] by the time
    [main] looks at it. *)
Theorem stream_closed_once_unless_stop_raises
    (g : globals) (h : Stream) (env : stop_env)
    (stop_raises close_raises : option exn) :
  is_recording g = true -> stream g = Some h -> record_lock g = false ->
  exists g',
    (stop_recording env ;; main_finally stop_raises close_raises) g
    = Returned tt g' /\
    stream g' = None /\
    closed_streams (trace g')
    = match stop_stream_raises env with
      | None => h :: closed_streams (trace g)
      | Some _ => closed_streams (trace g)
      end.
Proof.
  intros Hrec Hs Hlock. binds.
  destruct (closes_cleanly env) eqn:Hclean.
  - rewrite (stop_recording_clean g h env Hrec Hlock Hs Hclean).
    assert (Hstop : stop_stream_raises env = None)
      by (destruct env as [[e|] [e'|] t]; (discriminate Hclean || reflexivity)).
    rewrite Hstop.
    destruct (N.leb_spec (N.of_nat (length (join (frames g)))) max_payload)
      as [Hfit | Hbig].
    + rewrite (encode_and_dispatch_fits _ _ Hfit).
      eexists. split; [lazy; reflexivity |]. split; reflexivity.
    + rewrite (encode_and_dispatch_overflow _ _ Hbig).
      eexists. split; [lazy; reflexivity |]. split; reflexivity.
  - fields g. destruct env as [[e|] [e'|] t]; try discriminate Hclean;
      eexists; (split; [lazy; reflexivity |]); split; reflexivity.
Qed.

Lemma stream_closed_once_unless_stop_raises_witness :
  exists g',
    (stop_recording (mkStopEnv (Some (OSError (-9988))) None 2) ;;
     main_finally None None) session_in_progress = Returned tt g' /\
    closed_streams (trace g') = [].
Proof.
  destruct (stream_closed_once_unless_stop_raises session_in_progress
              (mkStream 0) (mkStopEnv (Some (OSError (-9988))) None 2)
              None None eq_refl eq_refl eq_refl) as (g' & Hrun & _ & Hclosed).
  exists g'. split; assumption.
Defined.

End SessionFacts.

(** ** Where sessions are dispatched *)

Section DispatchFacts.

Ltac fields g :=
  destruct g as [recording fs s start stop lock tr]; cbn [is_recording frames
    stream recording_start_time exit_event record_lock trace] in *; subst.

Ltac binds := cbv beta iota delta [bind Monad_prog prog_bind read].

Ltac nothing_new := exists []; split; [| split; [cbn; lia | intros H; now elim H]].

Lemma stop_recording_dispatches (g : globals) (env : stop_env) :
  exists new,
    dispatched (trace (globals_of (stop_recording env g)))
    = new ++ dispatched (trace g) /\
    (length new <= 1)%nat /\
    (new <> [] -> is_recording g = true).
Proof.
  destruct (record_lock g) eqn:Hlock.
  { rewrite (stop_recording_held g env Hlock). now nothing_new. }
  destruct (is_recording g) eqn:Hrec.
  - destruct (closes_cleanly env) eqn:Hclean;
      [destruct (stream g) as [h|] eqn:Hs |].
    + rewrite (stop_recording_clean g h env Hrec Hlock Hs Hclean).
      destruct (N.leb_spec (N.of_nat (length (join (frames g)))) max_payload)
        as [Hfit | Hbig].
      * rewrite (encode_and_dispatch_fits _ _ Hfit).
        exists [container (join (frames g))].
        split; [reflexivity | split; [cbn; lia | reflexivity]].
      * rewrite (encode_and_dispatch_overflow _ _ Hbig). now nothing_new.
    + destruct (stop_recording_close_fails g env Hrec Hlock (or_intror Hs))
        as (e & calls & -> & Hcalls).
      exists []. cbn [globals_of trace dispatched app].
      rewrite dispatched_app, Hcalls.
      split; [reflexivity | split; [cbn; lia | intros H; now elim H]].
    + destruct (stop_recording_close_fails g env Hrec Hlock (or_introl Hclean))
        as (e & calls & -> & Hcalls).
      exists []. cbn [globals_of trace dispatched app].
      rewrite dispatched_app, Hcalls.
      split; [reflexivity | split; [cbn; lia | intros H; now elim H]].
  - rewrite (stop_recording_idle g env Hrec Hlock). now nothing_new.
Qed.

(** Whatever the globals, a step of a thread starts at most one
    [process_audio] thread, and it starts one only if it is a
    [stop_recording], from the button or from the window closing, made
    while recording. Starting, capturing, the workers and the end of
    [main] never dispatch anything. *)
Theorem only_a_stop_dispatches (a : action) (g : globals) :
  exists new,
    dispatched (trace (globals_of (perform a g)))
    = new ++ dispatched (trace g) /\
    (length new <= 1)%nat /\
    (new <> [] ->
     is_recording g = true /\
     exists env, a = Stop env \/ a = Closing true env).
Proof.
  destruct a as [opened now | env | env | confirmed env | buf env | e1 e2];
    cbn [perform].
  - fields g. destruct lock; [now nothing_new |].
    destruct recording; [now nothing_new |].
    destruct opened; now nothing_new.
  - destruct (stop_recording_dispatches g env) as (new & Hnew & Hone & Hrec).
    exists new. split; [exact Hnew |]. split; [exact Hone |].
    intros Hsome. split; [now apply Hrec |]. exists env. now left.
  - binds. destruct (exit_event g); [now nothing_new |].
    destruct (record_lock g) eqn:Hlock.
    { rewrite (capture_held g env Hlock). now nothing_new. }
    destruct (is_recording g) eqn:Hrec.
    + destruct (stream g) as [h|] eqn:Hs.
      * destruct env as [[e | data] failure].
        -- rewrite (capture_read_fails g h e (mkIterationEnv (inl e) failure)
                      Hrec Hs Hlock eq_refl). now nothing_new.
        -- rewrite (capture_appends g h data
                      (mkIterationEnv (inr data) failure)
                      Hrec Hs Hlock eq_refl). now nothing_new.
      * rewrite (capture_idle g env (or_intror Hs) Hlock). now nothing_new.
    + rewrite (capture_idle g env (or_introl Hrec) Hlock). now nothing_new.
  - unfold on_closing. binds.
    destruct (is_recording g) eqn:Hrec; [destruct confirmed |];
      try now nothing_new.
    destruct (stop_recording_dispatches g env) as (new & Hnew & Hone & _).
    exists new. split; [| split; [exact Hone |]].
    + destruct (stop_recording env g) as [[] g' | e g' | g']; exact Hnew.
    + intros _. split; [reflexivity |]. exists env. now right.
  - destruct (process_audio_trace buf env g) as (evs & -> & Hnone & _).
    exists []. cbn [globals_of logging trace app].
    rewrite dispatched_app, Hnone.
    split; [reflexivity | split; [cbn; lia | intros H; now elim H]].
  - fields g. destruct lock; [now nothing_new |].
    destruct s as [h|]; [destruct e1, e2 |]; now nothing_new.
Qed.

End DispatchFacts.

(** ** The worker *)

Section WorkerFacts.

Local Open Scope Q_scope.

Ltac worker :=
  cbv beta iota zeta delta
    [process_audio translate_text is_empty hasattr_text truthy text
     api_start_time transcribe_answer api_end_time translation_start_time
     translate_answer translation_end_time logging
     handler_raises response_error_message
     bind ret raise catch Monad_prog Exc_prog prog_bind prog_ret prog_catch
     finally read emit call
     is_recording frames stream recording_start_time exit_event record_lock
     trace negb andb orb app tl globals_of initial].

Ltac apart_facts :=
  repeat split;
  try discriminate;
  try (intros [H | H]; discriminate H);
  try (intros; discriminate);
  try (intros; reflexivity);
  try (intros; eexists; intros; reflexivity).

Ltac solve_run := split; [intros g; worker; reflexivity | worker; apart_facts].

(** A run of [process_audio] stands apart from the recorder. What it does
    is the same whatever the globals are, and it changes none of them; it
    starts no thread and reads no stream; and however it ends, the last
    thing it does, once and only once, is to close its buffer. It returns
    whatever the two services answer, with one exception: when the
    transcription call raises with a status and line 114 cannot read a
    message off the body, the exception raised there leaves
    [process_audio]. *)
Theorem process_audio_runs_apart (audio_buffer : bytes) (env : worker_env) :
  exists evs,
    (forall g : globals,
       globals_of (process_audio audio_buffer env g)
       = logging (audio_buffer_close :: evs) g) /\
    buffer_closes evs = 0%nat /\
    dispatched evs = [] /\
    reads_on evs = [] /\
    (is_empty audio_buffer = true \/
     handler_raises (transcribe_answer env) = false ->
     forall g : globals,
       process_audio audio_buffer env g
       = Returned tt (logging (audio_buffer_close :: evs) g)) /\
    (is_empty audio_buffer = false ->
     handler_raises (transcribe_answer env) = true ->
     exists e,
     forall g : globals,
       process_audio audio_buffer env g
       = Raised e (logging (audio_buffer_close :: evs) g)).
Proof.
  exists (tl (trace (globals_of (process_audio audio_buffer env initial)))).
  destruct env as [t0 transcribed t1 t2 translated t3].
  destruct audio_buffer as [| b audio_buffer]; [solve_run |].
  destruct transcribed as [e | [[|] [said|]]]; [| | solve_run ..].
  - destruct e as [errno | | | e | code [| | [[| [m|]]|]] |]; solve_run.
  - destruct translated as [e | content]; [solve_run |].
    destruct (nonempty_string (strip content)) eqn:Hstrip.
    + split; [intros g; worker; rewrite Hstrip; reflexivity |].
      worker. rewrite Hstrip. apart_facts.
    + split; [intros g; worker; rewrite Hstrip; reflexivity |].
      worker. rewrite Hstrip. apart_facts.
Qed.

(** The transcription service is called at most once in a run, however
    the run ends, with the whole buffer, and it is not called exactly when
    the buffer is the empty byte string. *)
Theorem transcription_called_once_unless_empty
    (audio_buffer : bytes) (env : worker_env) (g : globals) :
  transcription_calls (trace (globals_of (process_audio audio_buffer env g)))
  = (if is_empty audio_buffer then [] else [audio_buffer])
      ++ transcription_calls (trace g).
Proof.
  destruct (process_audio_trace audio_buffer env g)
    as (evs & -> & _ & _ & Hcalls & _).
  cbn [logging trace]. now rewrite transcription_calls_app, Hcalls.
Qed.

(** When the transcription has succeeded and the translation service
    raises, the run keeps what it has: the text transcribed and its
    duration are printed before the call, the exception is printed by
    [translate_text], then the failure of the translation and the total
    duration, in which the time spent on the failed call counts. *)
Theorem failed_translation_keeps_the_transcription
    (audio_buffer : bytes) (env : worker_env) (said : str) (e : exn)
    (g : globals) :
  audio_buffer <> [] ->
  transcribe_answer env = inr (mkTranscription true (Some said)) ->
  translate_answer env = inl e ->
  process_audio audio_buffer env g
  = Returned tt
      (logging
         [audio_buffer_close;
          print (Total_duration
                   (api_end_time env - api_start_time env
                    + (translation_end_time env - translation_start_time env)));
          print (Text "Translation failed or returned empty.");
          print (Error_in_translation e);
          chat_completions_create (Some said) llama_model;
          print (Transcription_duration
                   (api_end_time env - api_start_time env));
          print (You_said (Some said));
          transcriptions_create audio_buffer whisper_model;
          print (Text "Sending audio for transcription...")]
         g).
Proof.
  intros Hbuf Hsaid Hraised.
  destruct env as [t0 transcribed t1 t2 translated t3].
  cbn [transcribe_answer translate_answer] in Hsaid, Hraised. subst.
  destruct audio_buffer as [| b audio_buffer]; [now elim Hbuf |].
  worker. reflexivity.
Qed.

Lemma failed_translation_keeps_the_transcription_witness :
  printed
    (trace
       (globals_of
          (process_audio [x52; x49]
             (mkWorkerEnv 0 (inr (mkTranscription true (Some (str_of "hola"))))
                2 2 (inl APIConnectionError) 3)
             initial)))
  = [Total_duration (2 - 0 + (3 - 2));
     Text "Translation failed or returned empty.";
     Error_in_translation APIConnectionError;
     Transcription_duration (2 - 0);
     You_said (Some (str_of "hola"));
     Text "Sending audio for transcription..."].
Proof.
  rewrite (failed_translation_keeps_the_transcription [x52; x49]
             (mkWorkerEnv 0 (inr (mkTranscription true (Some (str_of "hola"))))
                2 2 (inl APIConnectionError) 3)
             (str_of "hola") APIConnectionError initial);
    [reflexivity | discriminate | reflexivity | reflexivity].
Defined.

(** A run in which both services answer and the translation is not empty
    once stripped: one transcription call with the buffer, then one
    translation call with the text transcribed; the translation is printed
    stripped; the total printed is the sum of the two durations. *)
Theorem successful_run_transcribes_then_translates
    (audio_buffer : bytes) (env : worker_env) (said content : str)
    (g : globals) :
  audio_buffer <> [] ->
  transcribe_answer env = inr (mkTranscription true (Some said)) ->
  translate_answer env = inr content ->
  nonempty_string (strip content) = true ->
  process_audio audio_buffer env g
  = Returned tt
      (logging
         [audio_buffer_close;
          print (Total_duration
                   (api_end_time env - api_start_time env
                    + (translation_end_time env - translation_start_time env)));
          print (Translation_duration
                   (translation_end_time env - translation_start_time env));
          print (Translated_text (strip content));
          chat_completions_create (Some said) llama_model;
          print (Transcription_duration
                   (api_end_time env - api_start_time env));
          print (You_said (Some said));
          transcriptions_create audio_buffer whisper_model;
          print (Text "Sending audio for transcription...")]
         g).
Proof.
  intros Hbuf Hsaid Htranslated Hnonempty.
  destruct env as [t0 transcribed t1 t2 translated t3].
  cbn [transcribe_answer translate_answer] in Hsaid, Htranslated. subst.
  destruct audio_buffer as [| b audio_buffer]; [now elim Hbuf |].
  worker. rewrite Hnonempty. reflexivity.
Qed.

Lemma successful_run_transcribes_then_translates_witness :
  translation_calls
    (trace
       (globals_of
          (process_audio [x52; x49]
             (mkWorkerEnv 0 (inr (mkTranscription true (Some (str_of "hola"))))
                2 2 (inr (str_of " hello ")) 3)
             initial)))
  = [Some (str_of "hola")].
Proof.
  rewrite (successful_run_transcribes_then_translates [x52; x49]
             (mkWorkerEnv 0 (inr (mkTranscription true (Some (str_of "hola"))))
                2 2 (inr (str_of " hello ")) 3)
             (str_of "hola") (str_of " hello ") initial);
    [reflexivity | discriminate | reflexivity | reflexivity | reflexivity].
Defined.

(** ** [translate_text] and [strip] *)

Lemma lstrip_lstrip (l : str) : lstrip (lstrip l) = lstrip l.
Proof.
  induction l as [| a l IH]; [reflexivity |].
  cbn [lstrip]. destruct (is_space a) eqn:Ha; [exact IH |].
  cbn [lstrip]. now rewrite Ha.
Qed.

Lemma lstrip_head (l : str) :
  match lstrip l with
  | [] => True
  | a :: _ => is_space a = false
  end.
Proof.
  induction l as [| a l IH]; [exact I |].
  cbn [lstrip]. destruct (is_space a) eqn:Ha; [exact IH | exact Ha].
Qed.

Lemma lstrip_keeps_the_end (l : str) (a : N) :
  is_space a = false -> lstrip (l ++ [a]) = lstrip l ++ [a].
Proof.
  intros Ha. induction l as [| b l IH]; cbn [app lstrip].
  - now rewrite Ha.
  - destruct (is_space b); [exact IH | reflexivity].
Qed.

Lemma lstrip_spaces (l : str) :
  forallb is_space l = true -> lstrip l = [].
Proof.
  induction l as [| a l IH]; [reflexivity |].
  cbn [forallb lstrip]. intros H. apply andb_prop in H as (Ha & Hl).
  rewrite Ha. now apply IH.
Qed.

(** What [strip] leaves of a list of characters: nothing, or a list that
    begins and ends with a character that is not white space. *)
Lemma trimmed_shape (l : str) :
  rev (lstrip (rev (lstrip l))) = [] \/
  exists a middle,
    lstrip l = a :: middle /\ is_space a = false /\
    rev (lstrip (rev (lstrip l))) = a :: rev (lstrip (rev middle)).
Proof.
  pose proof (lstrip_head l) as Hhead.
  destruct (lstrip l) as [| a middle]; [left; reflexivity |].
  right. exists a, middle. split; [reflexivity |]. split; [exact Hhead |].
  cbn [rev]. rewrite (lstrip_keeps_the_end _ a Hhead).
  rewrite rev_app_distr. reflexivity.
Qed.

(** Stripping twice is stripping once, and a text of white space only
    becomes the empty text. *)
Lemma strip_idempotent (s : str) :
  strip (strip s) = strip s /\
  (forallb is_space s = true -> strip s = []).
Proof.
  unfold strip. split.
  - destruct (trimmed_shape s) as [-> | (a & middle & _ & Ha & ->)];
      [reflexivity |].
    cbn [lstrip]. rewrite Ha. cbn [rev].
    rewrite rev_involutive, (lstrip_keeps_the_end _ a Ha), lstrip_lstrip.
    now rewrite rev_app_distr.
  - intros Hspaces. now rewrite (lstrip_spaces _ Hspaces).
Qed.

(** A translation made of white space only, the empty one included,
    counts as no translation: the run prints the text transcribed, then
    that the translation failed, and no translated text. *)
Theorem blank_translation_is_reported_as_failed
    (audio_buffer : bytes) (env : worker_env) (said content : str)
    (g : globals) :
  audio_buffer <> [] ->
  transcribe_answer env = inr (mkTranscription true (Some said)) ->
  translate_answer env = inr content ->
  forallb is_space content = true ->
  process_audio audio_buffer env g
  = Returned tt
      (logging
         [audio_buffer_close;
          print (Total_duration
                   (api_end_time env - api_start_time env
                    + (translation_end_time env - translation_start_time env)));
          print (Text "Translation failed or returned empty.");
          chat_completions_create (Some said) llama_model;
          print (Transcription_duration
                   (api_end_time env - api_start_time env));
          print (You_said (Some said));
          transcriptions_create audio_buffer whisper_model;
          print (Text "Sending audio for transcription...")]
         g).
Proof.
  intros Hbuf Hsaid Htranslated Hblank.
  assert (Hstrip : strip content = []).
  { unfold strip. now rewrite (lstrip_spaces _ Hblank). }
  destruct env as [t0 transcribed t1 t2 translated t3].
  cbn [transcribe_answer translate_answer] in Hsaid, Htranslated. subst.
  destruct audio_buffer as [| b audio_buffer]; [now elim Hbuf |].
  worker. rewrite Hstrip. reflexivity.
Qed.

Lemma blank_translation_is_reported_as_failed_witness :
  printed
    (trace
       (globals_of
          (process_audio [x52; x49]
             (mkWorkerEnv 0 (inr (mkTranscription true (Some (str_of "hola"))))
                2 2 (inr (32 :: 160 :: 8195 :: str_of "  ")%N) 3)
             initial)))
  = [Total_duration (2 - 0 + (3 - 2));
     Text "Translation failed or returned empty.";
     Transcription_duration (2 - 0);
     You_said (Some (str_of "hola"));
     Text "Sending audio for transcription..."].
Proof.
  rewrite (blank_translation_is_reported_as_failed [x52; x49]
             (mkWorkerEnv 0 (inr (mkTranscription true (Some (str_of "hola"))))
                2 2 (inr (32 :: 160 :: 8195 :: str_of "  ")%N) 3)
             (str_of "hola") (32 :: 160 :: 8195 :: str_of "  ")%N initial);
    [reflexivity | discriminate | reflexivity | reflexivity | reflexivity].
Defined.

End WorkerFacts.

(** ** The file of a session *)

Section FileFacts.

Local Open Scope N_scope.

Lemma container_payload (data : bytes) : skipn 44 (container data) = data.
Proof. reflexivity. Qed.

Lemma container_length (data : bytes) :
  length (container data) = (44 + length data)%nat.
Proof. reflexivity. Qed.

(** The file written for a session is laid out as a reader expects: 44
    bytes of header and then the chunks; it begins with [RIFF], a size
    that is the length of the file less the eight bytes before it, and
    [WAVE]; and the length field of the data chunk, at offset 40, is the
    number of bytes of the chunks. *)
Theorem encoded_file_layout (fs : list bytes) (file : bytes) :
  encode fs = inr file ->
  length file = (44 + length (join fs))%nat /\
  firstn 4 file = tag_RIFF /\
  unpack_le (firstn 4 (skipn 4 file)) = N.of_nat (length file) - 8 /\
  firstn 4 (skipn 8 file) = tag_WAVE /\
  unpack_le (firstn 4 (skipn 40 file)) = N.of_nat (length (join fs)) /\
  skipn 44 file = join fs.
Proof.
  rewrite encode_closed_form.
  destruct (N.leb_spec (N.of_nat (length (join fs))) max_payload)
    as [Hfit | Hbig]; [| discriminate].
  intros [= <-]. unfold max_payload in Hfit.
  split; [apply container_length |]. split; [reflexivity |].
  split; [| split; [reflexivity | split; [| apply container_payload]]].
  - rewrite container_length.
    change (firstn 4 (skipn 4 (container (join fs))))
      with (le32 (36 + N.of_nat (length (join fs)))).
    rewrite unpack_le32 by lia. lia.
  - change (firstn 4 (skipn 40 (container (join fs))))
      with (le32 (N.of_nat (length (join fs)))).
    apply unpack_le32. lia.
Qed.

Lemma encoded_file_layout_witness :
  exists file,
    encode [[x01; x00]; [x02; x00]] = inr file /\
    length file = 48%nat /\
    skipn 44 file = [x01; x00; x02; x00].
Proof.
  exists (container [x01; x00; x02; x00]).
  assert (H : encode [[x01; x00]; [x02; x00]]
              = inr (container [x01; x00; x02; x00]))
    by (vm_compute; reflexivity).
  split; [exact H |].
  destruct (encoded_file_layout [[x01; x00]; [x02; x00]]
              (container [x01; x00; x02; x00]) H)
    as (Hlen & _ & _ & _ & _ & Hdata).
  split; assumption.
Defined.

(** The file keeps the bytes of the chunks and forgets where one chunk
    ends and the next begins: two buffers give the same file exactly when
    their chunks, put end to end, are the same bytes. *)
Theorem file_depends_on_the_bytes_only (fs fs' : list bytes) (file : bytes) :
  encode fs = inr file ->
  (encode fs' = inr file <-> join fs' = join fs).
Proof.
  intros Hfile. split.
  - intros Hfile'. rewrite encode_closed_form in Hfile, Hfile'.
    destruct (N.of_nat (length (join fs)) <=? max_payload); [| discriminate].
    destruct (N.of_nat (length (join fs')) <=? max_payload); [| discriminate].
    assert (Hsame : container (join fs') = container (join fs))
      by congruence.
    apply (f_equal (skipn 44)) in Hsame.
    now rewrite !container_payload in Hsame.
  - intros Hsame. rewrite <- Hfile. unfold encode. now rewrite Hsame.
Qed.

Lemma file_depends_on_the_bytes_only_witness :
  encode [[x01; x00; x02; x00]] = encode [[x01; x00]; []; [x02; x00]].
Proof.
  destruct (encode [[x01; x00]; []; [x02; x00]]) as [e | file] eqn:Hfile.
  - vm_compute in Hfile. discriminate Hfile.
  - apply (file_depends_on_the_bytes_only
             [[x01; x00]; []; [x02; x00]] [[x01; x00; x02; x00]] file Hfile).
    reflexivity.
Defined.

(** Lines 169-194 end in one of two ways. If the chunks fit the 32-bit
    length fields of the header the file is written, passes the check of
    lines 180-182 and goes to a [process_audio] thread; if they do not,
    [struct.pack] raises, the error is printed and shown, and no thread is
    started. The "malformed" branch of lines 183-186 is never taken. *)
Theorem encode_and_dispatch_outcome (fs : list bytes) (g : globals) :
  encode_and_dispatch fs g
  = Returned tt
      (logging
         (if N.of_nat (length (join fs)) <=? max_payload
          then [thread_start (container (join fs))]
          else [showerror
                  (Failed_to_write_audio_buffer (WaveException struct_error));
                print
                  (Error_writing_audio_buffer (WaveException struct_error))])
         g).
Proof.
  destruct (N.leb_spec (N.of_nat (length (join fs))) max_payload)
    as [Hfit | Hbig].
  - now rewrite (encode_and_dispatch_fits fs g Hfit).
  - now rewrite (encode_and_dispatch_overflow fs g Hbig).
Qed.

End FileFacts.
